(** * Tic-tac-toe game state of [src/index.tsx]: a shallow embedding

    The [Game] component keeps [{history, step, xIsNext}] and changes it
    through two handlers, [handleClick] and [jumpTo]; [render] derives the
    status line and the labels of the history buttons.  The helper
    functions [calculateWinner] and [calculateCoordinate] are pure.

    JavaScript data is modelled as the code uses it:
    - a cell is a [string] (['' ], ['X'], ['O']); reading an array slot
      yields a [value], which is [Undefined] when the slot is absent;
    - a [squares] array is an object with a [length] and a finite map of
      properties, so that a write at an array index past the end extends
      it and a write at any other key (negative, or [2^32 - 1] and above)
      only adds a property, as in JavaScript;
    - numbers are integers ([Z]); [%] is the truncating remainder [Z.rem];
    - a handler either completes ([Ok]) or throws ([Throw TypeError]),
      which is what a property read on [undefined] does. *)

From stdpp Require Import gmap strings list pretty.

Local Open Scope Z_scope.

(** ** JavaScript values and arrays *)

Inductive value : Type :=
  | Undefined
  | Null
  | Str (s : string).

Global Instance value_eq_dec : EqDecision value.
Proof. solve_decision. Defined.

(** ToBoolean: [undefined], [null] and [''] are falsy. *)
Definition truthy (v : value) : bool :=
  match v with
  | Str (String _ _) => true
  | _ => false
  end.

(** [v === w] *)
Definition strict_eq (v w : value) : bool := bool_decide (v = w).

Record array : Type := mkArray {
  alen : Z;
  elems : gmap Z string
}.

(** [Array<string>(n).fill(v)] *)
Definition Array_fill (n : nat) (v : string) : array :=
  {| alen := Z.of_nat n;
     elems := list_to_map ((fun k => (k, v)) <$> seqZ 0 (Z.of_nat n)) |}.

(** the array literal [[v0, v1, ...]] *)
Definition array_of_list (l : list string) : array :=
  {| alen := Z.of_nat (length l);
     elems := list_to_map (zip (seqZ 0 (Z.of_nat (length l))) l) |}.

(** the empty cell, [''] *)
Definition empty_cell : string := EmptyString.

(** [a[i]] *)
Definition aget (a : array) (i : Z) : value :=
  match elems a !! i with
  | Some s => Str s
  | None => Undefined
  end.

(** the largest array index plus one, [2^32 - 1] *)
Definition index_limit : Z := 4294967295.

(** [a[i] = v]: an array index ([0 <= i < 2^32 - 1]) at or past [length]
    extends the array; any other key (negative, or [2^32 - 1] and above)
    becomes a plain property and leaves [length] alone. *)
Definition aset (a : array) (i : Z) (v : string) : array :=
  {| alen := if decide (0 <= i < index_limit /\ alen a <= i) then i + 1
             else alen a;
     elems := <[i := v]> (elems a) |}.

(** [a.slice()]: copies the indexed elements only. *)
Definition aslice (a : array) : array :=
  {| alen := alen a;
     elems := filter (fun kv => 0 <= kv.1 < alen a) (elems a) |}.

(** [l[i]] for an array that is only read, held as a list. *)
Definition list_get {A} (l : list A) (i : Z) : option A :=
  if decide (0 <= i) then l !! Z.to_nat i else None.

(** [l.slice(0, e)]: a negative [e] counts from the end. *)
Definition list_slice0 {A} (l : list A) (e : Z) : list A :=
  let len := Z.of_nat (length l) in
  let final := if decide (e < 0) then Z.max (len + e) 0 else Z.min e len in
  take (Z.to_nat final) l.

(** ** Outcomes of handlers *)

Inductive exn : Type := TypeError.

Inductive outcome (A : Type) : Type :=
  | Ok (a : A)
  | Throw (e : exn).
Arguments Ok {A} a.
Arguments Throw {A} e.

Definition bind {A B} (m : outcome A) (k : A -> outcome B) : outcome B :=
  match m with
  | Ok a => k a
  | Throw e => Throw e
  end.

Fixpoint collect {A} (l : list (outcome A)) : outcome (list A) :=
  match l with
  | [] => Ok []
  | m :: r => bind m (fun a => bind (collect r) (fun ar => Ok (a :: ar)))
  end.

(** ** calculateWinner *)

Definition lines : list (Z * Z * Z) :=
  [ (0, 1, 2);
    (3, 4, 5);
    (6, 7, 8);
    (0, 3, 6);
    (1, 4, 7);
    (2, 5, 8);
    (0, 4, 8);
    (2, 4, 6) ].

(** the [for] loop over [lines], returning from inside the body *)
Fixpoint scan_lines (ls : list (Z * Z * Z)) (squares : array) : value :=
  match ls with
  | [] => Null
  | (a, b, c) :: rest =>
      if truthy (aget squares a)
         && strict_eq (aget squares a) (aget squares b)
         && strict_eq (aget squares a) (aget squares c)
      then aget squares a
      else scan_lines rest squares
  end.

Definition calculateWinner (squares : array) : value :=
  scan_lines lines squares.

(** ** calculateCoordinate *)

Definition coordinateMap : gmap Z (list Z) :=
  <[8 := [3; 3]]> (<[7 := [2; 3]]> (<[6 := [1; 3]]>
  (<[5 := [3; 2]]> (<[4 := [2; 2]]> (<[3 := [1; 2]]>
  (<[2 := [3; 1]]> (<[1 := [2; 1]]> (<[0 := [1; 1]]> ∅)))))))).

(** [coordinateMap.get(i)]: [None] stands for [undefined] *)
Definition calculateCoordinate (i : Z) : option (list Z) :=
  coordinateMap !! i.

(** ** The Game component *)

Record entry : Type := mkEntry {
  squares : array;
  coords : option (list Z)
}.

Record GameState : Type := mkState {
  history : list entry;
  step : Z;
  xIsNext : bool
}.

Definition initial : GameState :=
  {| history := [ {| squares := Array_fill 9 empty_cell; coords := None |} ];
     step := 0;
     xIsNext := true |}.

Definition handleClick (i : Z) (state : GameState) : outcome GameState :=
  let history' := list_slice0 (history state) (step state + 1) in
  match list_get history' (step state) with
  | None => Throw TypeError
  | Some current =>
      let squares0 := aslice (squares current) in
      let xIsNext0 := xIsNext state in
      if truthy (calculateWinner squares0) || truthy (aget squares0 i)
      then Ok state
      else
        let squares1 := aset squares0 i (if xIsNext0 then "X" else "O") in
        Ok {| history :=
                history' ++ [ {| squares := squares1;
                                 coords := calculateCoordinate i |} ];
              step := Z.of_nat (length history');
              xIsNext := negb xIsNext0 |}
  end.

Definition jumpTo (move : Z) (state : GameState) : outcome GameState :=
  Ok {| history := history state;
        step := move;
        xIsNext := (Z.rem move 2 =? 0) |}.

(** [xs.join(sep)] on already printed elements *)
Fixpoint join (sep : string) (xs : list string) : string :=
  match xs with
  | [] => EmptyString
  | [x] => x
  | x :: r => x +:+ sep +:+ join sep r
  end.

(** the callback of [history.map] in [render] *)
Definition description (move : nat) (it : entry) : outcome string :=
  if decide (move = 0%nat) then Ok "Go to start"
  else
    match coords it with
    | None => Throw TypeError
    | Some cs =>
        Ok ("Go to move #" +:+ pretty (Z.of_nat move) +:+ " at ("
            +:+ join ", " (pretty <$> cs) +:+ ")")
    end.

Definition value_text (v : value) : string :=
  match v with
  | Undefined => "undefined"
  | Null => "null"
  | Str s => s
  end.

Record view : Type := mkView {
  view_squares : array;
  view_status : string;
  view_moves : list string
}.

Definition render (state : GameState) : outcome view :=
  match list_get (history state) (step state) with
  | None => Throw TypeError
  | Some current =>
      let winner := calculateWinner (squares current) in
      let nextPlayer := if xIsNext state then "X" else "O" in
      let status :=
        if truthy winner then "Winner is " +:+ value_text winner +:+ "!"
        else "Next Player is " +:+ nextPlayer in
      bind (collect (imap description (history state))) (fun moves =>
      Ok {| view_squares := squares current;
            view_status := status;
            view_moves := moves |})
  end.

(** The labels alone, as [render] computes them. *)
Definition historyDescriptions (state : GameState) : outcome (list string) :=
  bind (render state) (fun v => Ok (view_moves v)).

(** ** Vocabulary of the properties *)

(** A board as the game makes them: length 9, exactly the slots 0..8,
    each one of [''], ['X'], ['O']. *)
Definition board9 (a : array) : Prop :=
  alen a = 9 /\
  (forall k, is_Some (elems a !! k) <-> 0 <= k < 9) /\
  (forall k s, elems a !! k = Some s -> s = empty_cell \/ s = "X" \/ s = "O").

(** All three cells of the line hold the same non-empty mark [m]. *)
Definition line_wins (sq : array) (l : Z * Z * Z) (m : string) : Prop :=
  let '(a, b, c) := l in
  m <> empty_cell /\ aget sq a = Str m /\ aget sq b = Str m /\ aget sq c = Str m.

Definition line_complete (sq : array) (l : Z * Z * Z) : Prop :=
  exists m, line_wins sq l m.

(** the condition of the [if] inside the loop *)
Definition line_test (sq : array) (l : Z * Z * Z) : bool :=
  let '(a, b, c) := l in
  truthy (aget sq a)
  && strict_eq (aget sq a) (aget sq b)
  && strict_eq (aget sq a) (aget sq c).

(** The spec's formula: [column = index % 3 + 1], [row = index / 3 + 1]. *)
Definition spec_coordinate (index : Z) : list Z :=
  [index mod 3 + 1; index / 3 + 1].

(** the mark that [handleClick] writes *)
Definition mark (x : bool) : string := if x then "X" else "O".

(** the state that [setState] installs after a legal click *)
Definition clicked (i : Z) (s : GameState) (current : entry) : GameState :=
  {| history :=
       take (S (Z.to_nat (step s))) (history s)
       ++ [ {| squares := aset (aslice (squares current)) i (mark (xIsNext s));
               coords := calculateCoordinate i |} ];
     step := step s + 1;
     xIsNext := negb (xIsNext s) |}.

(** A cell index the board component can send. *)
Definition cell_index (i : Z) : Prop := 0 <= i <= 8.

(** States the documented UI flow can produce: clicks on one of the nine
    cells and jumps to a step that exists. *)
Inductive reachable : GameState -> Prop :=
  | reach_initial : reachable initial
  | reach_click s i s' :
      reachable s -> cell_index i -> handleClick i s = Ok s' -> reachable s'
  | reach_jump s k s' :
      reachable s -> 0 <= k < Z.of_nat (length (history s)) ->
      jumpTo k s = Ok s' -> reachable s'.

(** the board shown at [step], when there is one *)
Definition current_entry (s : GameState) : option entry :=
  list_get (history s) (step s).

(** A legal move: the game is not won and the cell is empty. *)
Definition legal_move (i : Z) (s : GameState) : Prop :=
  exists current, current_entry s = Some current /\
    calculateWinner (squares current) = Null /\
    aget (squares current) i = Str empty_cell.

(** States produced by legal moves alone, without time travel. *)
Inductive played : GameState -> Prop :=
  | played_initial : played initial
  | played_move s i s' :
      played s -> cell_index i -> legal_move i s ->
      handleClick i s = Ok s' -> played s'.

(** UI events, to build concrete reachable states *)
Inductive event : Type :=
  | Click (i : Z)
  | Jump (k : Z).

Definition dispatch (e : event) (s : GameState) : outcome GameState :=
  match e with
  | Click i => handleClick i s
  | Jump k => jumpTo k s
  end.

Definition event_in_range (e : event) (s : GameState) : bool :=
  match e with
  | Click i => bool_decide (cell_index i)
  | Jump k => bool_decide (0 <= k < Z.of_nat (length (history s)))
  end.

Fixpoint run (es : list event) (s : GameState) : option GameState :=
  match es with
  | [] => Some s
  | e :: r =>
      if event_in_range e s then
        match dispatch e s with
        | Ok s' => run r s'
        | Throw _ => None
        end
      else None
  end.

(** the state after the events [es], from the start of the game *)
Definition state_after (es : list event) : GameState :=
  default initial (run es initial).

Record game_inv (s : GameState) : Prop := {
  inv_step : 0 <= step s < Z.of_nat (length (history s));
  inv_parity : xIsNext s = Z.even (step s);
  inv_first :
    history s !! 0%nat
    = Some {| squares := Array_fill 9 empty_cell; coords := None |};
  inv_boards : forall m e, history s !! m = Some e -> board9 (squares e);
  inv_moves : forall (m : nat) p e,
    history s !! m = Some p -> history s !! S m = Some e ->
    exists i, cell_index i /\
      aget (squares p) i = Str empty_cell /\
      calculateWinner (squares p) = Null /\
      squares e = aset (squares p) i (mark (Z.even (Z.of_nat m))) /\
      coords e = calculateCoordinate i
}.

(** the label [render] gives to a move that has coordinates *)
Definition move_label (m : nat) (col row : Z) : string :=
  "Go to move #" +:+ pretty (Z.of_nat m) +:+ " at ("
  +:+ pretty col +:+ ", " +:+ pretty row +:+ ")".

(** States the two handlers produce when called with any integers at all:
    any cell index, any step. *)
Inductive driven : GameState -> Prop :=
  | driven_initial : driven initial
  | driven_event s e s' : driven s -> dispatch e s = Ok s' -> driven s'.

(** An array that still has the nine cells of a board: what every stored
    board is, whatever indexes were clicked. *)
Definition nine_slots (a : array) : Prop :=
  9 <= alen a /\ forall k, cell_index k -> is_Some (elems a !! k).

(** a line of three distinct cells of the board *)
Definition line_in_board (l : Z * Z * Z) : Prop :=
  let '(a, b, c) := l in
  cell_index a /\ cell_index b /\ cell_index c /\ a <> b /\ a <> c /\ b <> c.

(** the parity bit of a step: one when it is odd *)
Definition odd_bit (m : nat) : nat := if Z.even (Z.of_nat m) then 0 else 1.

(** how many of the nine cells hold the mark [m] *)
Definition count_mark (m : string) (a : array) : nat :=
  length (filter (fun k => aget a k = Str m) (seqZ 0 9)).

(** ** The Board component *)

Definition BOARD_SIZE : Z := 3.

(** a rendered [Square]: its key, the text it shows and the index its
    [onClick] hands to the handler of the board *)
Record square : Type := mkSquare {
  sq_key : Z;
  sq_value : value;
  sq_click : Z
}.

Record board_row : Type := mkRow {
  row_key : Z;
  row_squares : list square
}.

Definition numbers : list Z := [0; 1; 2].

Definition renderSquare (squares : array) (i : Z) : square :=
  {| sq_key := i; sq_value := aget squares i; sq_click := i |}.

(** [numbers.map((_, row) => ... numbers.map((_, col) => ...))]: both
    callbacks use the position, not the element. *)
Definition Board (squares : array) : list board_row :=
  imap (fun row _ =>
          {| row_key := Z.of_nat row;
             row_squares :=
               imap (fun col _ =>
                       renderSquare squares
                         (Z.of_nat row * BOARD_SIZE + Z.of_nat col))
                    numbers |})
       numbers.

(** The indexes the rendered page can hand to [handleClick]: the board is
    the only element of [render] wired to a handler of [Game]; the history
    buttons only track the mouse. *)
Definition page_clicks (v : view) : list Z :=
  sq_click <$> concat (row_squares <$> Board (view_squares v)).

(** States a user of the page can produce. *)
Inductive ui_reachable : GameState -> Prop :=
  | ui_initial : ui_reachable initial
  | ui_click s v i s' :
      ui_reachable s -> render s = Ok v -> i ∈ page_clicks v ->
      handleClick i s = Ok s' -> ui_reachable s'.

(** ** The History component *)

Record HistoryState : Type := mkHistoryState {
  isMouseHovering : bool
}.

Definition History_initial : HistoryState := {| isMouseHovering := false |}.

(** the two mouse events the button listens to *)
Inductive mouse_event : Type :=
  | MouseOver
  | MouseLeave.

Definition History_handle (st : HistoryState) (ev : mouse_event) : HistoryState :=
  match ev with
  | MouseOver => {| isMouseHovering := true |}
  | MouseLeave => {| isMouseHovering := false |}
  end.

(** the rendered button: its text and the [fontWeight] of its style *)
Record history_button : Type := mkHistoryButton {
  hb_text : string;
  hb_fontWeight : string
}.

(** The children of the button are written on one line,
    [> { this.props.description } </button>], so the space on either side
    of the braces is part of the text. *)
Definition History_render (description : string) (st : HistoryState)
  : history_button :=
  {| hb_text := " " +:+ description +:+ " ";
     hb_fontWeight := if isMouseHovering st then "bold" else "normal" |}.

(** ** The component of the second source file

    It keeps no coordinates, and its history buttons call [jumpTo]. *)

Module NoCoords.

Record entry : Type := mkEntry {
  squares : array
}.

Record GameState : Type := mkState {
  history : list entry;
  step : Z;
  xIsNext : bool
}.

Definition initial : GameState :=
  {| history := [ {| squares := Array_fill 9 empty_cell |} ];
     step := 0;
     xIsNext := true |}.

Definition handleClick (i : Z) (state : GameState) : outcome GameState :=
  let history' := list_slice0 (history state) (step state + 1) in
  match list_get history' (step state) with
  | None => Throw TypeError
  | Some current =>
      let squares0 := aslice (squares current) in
      let xIsNext0 := xIsNext state in
      if truthy (calculateWinner squares0) || truthy (aget squares0 i)
      then Ok state
      else
        let squares1 := aset squares0 i (if xIsNext0 then "X" else "O") in
        Ok {| history := history' ++ [ {| squares := squares1 |} ];
              step := Z.of_nat (length history');
              xIsNext := negb xIsNext0 |}
  end.

Definition jumpTo (move : Z) (state : GameState) : outcome GameState :=
  Ok {| history := history state;
        step := move;
        xIsNext := (Z.rem move 2 =? 0) |}.

(** a history button: its key, its text, and the step its [onClick]
    passes to [jumpTo] *)
Record button : Type := mkButton {
  btn_key : Z;
  btn_text : string;
  btn_jump : Z
}.

Definition moveButton (move : nat) (_ : entry) : button :=
  let description :=
    if decide (move = 0%nat) then "Go to start"
    else "Go to move #" +:+ pretty (Z.of_nat move) in
  {| btn_key := Z.of_nat move;
     btn_text := description;
     btn_jump := Z.of_nat move |}.

Record view : Type := mkView {
  view_squares : array;
  view_status : string;
  view_moves : list button
}.

Definition render (state : GameState) : outcome view :=
  match list_get (history state) (step state) with
  | None => Throw TypeError
  | Some current =>
      let winner := calculateWinner (squares current) in
      let status :=
        if truthy winner then "Winner is " +:+ value_text winner +:+ "!"
        else "Next Player is " +:+ (if xIsNext state then "X" else "O") in
      Ok {| view_squares := squares current;
            view_status := status;
            view_moves := imap moveButton (history state) |}
  end.

(** what the rendered page can send: a click on a square, a click on a
    history button *)
Definition page_events (v : view) : list event :=
  (Click <$> (sq_click <$> concat (row_squares <$> Board (view_squares v))))
  ++ (Jump <$> (btn_jump <$> view_moves v)).

Definition dispatch (e : event) (s : GameState) : outcome GameState :=
  match e with
  | Click i => handleClick i s
  | Jump k => jumpTo k s
  end.

Inductive ui_reachable : GameState -> Prop :=
  | ui_initial : ui_reachable initial
  | ui_event s v e s' :
      ui_reachable s -> render s = Ok v -> e ∈ page_events v ->
      dispatch e s = Ok s' -> ui_reachable s'.

End NoCoords.

(** forgetting the coordinates of every entry *)
Definition erase_entry (e : entry) : NoCoords.entry :=
  {| NoCoords.squares := squares e |}.

Definition erase (s : GameState) : NoCoords.GameState :=
  {| NoCoords.history := erase_entry <$> history s;
     NoCoords.step := step s;
     NoCoords.xIsNext := xIsNext s |}.

Definition erase_outcome (r : outcome GameState) : outcome NoCoords.GameState :=
  match r with
  | Ok s => Ok (erase s)
  | Throw e => Throw e
  end.

(** * Properties *)

(** ** Arrays: lookups, nine-cell boards *)

Section arrays.

Lemma Array_fill_lookup (n : nat) (v : string) (k : Z) :
  elems (Array_fill n v) !! k
  = if decide (0 <= k < Z.of_nat n) then Some v else None.
Proof.
  unfold Array_fill; simpl. case_decide as Hk.
  - apply elem_of_list_to_map_1.
    + rewrite <- list_fmap_compose.
      rewrite (list_fmap_ext _ id) by done. rewrite list_fmap_id.
      apply NoDup_seqZ.
    + apply list_elem_of_fmap. exists k. split; [done|].
      apply elem_of_seqZ. lia.
  - apply not_elem_of_list_to_map_1.
    rewrite <- list_fmap_compose. intros Hin.
    apply list_elem_of_fmap in Hin as (j & -> & Hj).
    apply elem_of_seqZ in Hj. simpl in Hk. lia.
Qed.

Lemma aget_Array_fill (n : nat) (v : string) (k : Z) :
  aget (Array_fill n v) k
  = if decide (0 <= k < Z.of_nat n) then Str v else Undefined.
Proof. unfold aget. rewrite Array_fill_lookup. by case_decide. Qed.

Lemma aget_aset_eq a i v : aget (aset a i v) i = Str v.
Proof. unfold aget, aset; simpl. by rewrite lookup_insert_eq. Qed.

Lemma aget_aset_ne a i j v : i <> j -> aget (aset a i v) j = aget a j.
Proof. intros. unfold aget, aset; simpl. by rewrite lookup_insert_ne. Qed.

Lemma board9_fill : board9 (Array_fill 9 empty_cell).
Proof.
  split; [done|]. split.
  - intros k. rewrite Array_fill_lookup. case_decide; split; intros H';
      try done; try lia.
  - intros k s. rewrite Array_fill_lookup.
    case_decide; [intros [= <-]; by left | done].
Qed.

Lemma aslice_board9 a : board9 a -> aslice a = a.
Proof.
  intros (Hlen & Hdom & _). destruct a as [n m]; simpl in *.
  unfold aslice; simpl. f_equal.
  apply map_filter_id. intros k x Hk; simpl.
  rewrite Hlen. apply Hdom. eauto.
Qed.

Lemma aset_board9 a i v :
  board9 a -> 0 <= i <= 8 -> v = "X" \/ v = "O" -> board9 (aset a i v).
Proof.
  intros (Hlen & Hdom & Hcell) Hi Hv. unfold aset. split; [|split]; simpl.
  - case_decide; lia.
  - intros k. destruct (decide (i = k)) as [->|Hne].
    + rewrite lookup_insert_eq. split; [lia | eauto].
    + rewrite lookup_insert_ne by done. apply Hdom.
  - intros k s. destruct (decide (i = k)) as [->|Hne].
    + rewrite lookup_insert_eq. intros [= <-]. tauto.
    + rewrite lookup_insert_ne by done. apply Hcell.
Qed.

Lemma board9_aget_in a i : board9 a -> 0 <= i <= 8 -> exists s, aget a i = Str s.
Proof.
  intros (_ & Hdom & _) Hi. unfold aget.
  destruct (proj2 (Hdom i)) as [s ->]; [lia | eauto].
Qed.

Lemma board9_aget_out a i : board9 a -> i < 0 \/ 8 < i -> aget a i = Undefined.
Proof.
  intros (_ & Hdom & _) Hi. unfold aget.
  destruct (elems a !! i) eqn:E; [|done].
  assert (0 <= i < 9) by (apply Hdom; eauto). lia.
Qed.

End arrays.

(** ** Winning lines *)

Section winner.

Lemma truthy_Str v : truthy v = true <-> exists m, v = Str m /\ m <> empty_cell.
Proof.
  split.
  - destruct v as [| |[|c r]]; try discriminate. intros _. by eexists.
  - intros (m & -> & Hm). by destruct m.
Qed.

Lemma line_test_true sq a b c :
  line_test sq (a, b, c) = true <->
  exists m, line_wins sq (a, b, c) m /\ aget sq a = Str m.
Proof.
  unfold line_test, line_wins, strict_eq.
  rewrite !andb_true_iff, !bool_decide_eq_true, truthy_Str. split.
  - intros [[(m & Ha & Hm) Hb] Hc]. exists m. rewrite <- Hb, <- Hc. auto.
  - intros (m & (Hm & Ha & Hb & Hc) & _). rewrite Ha, Hb, Hc. eauto.
Qed.

Lemma line_test_false sq l : line_test sq l = false <-> ~ line_complete sq l.
Proof.
  destruct l as [[a b] c]. rewrite <- not_true_iff_false, line_test_true.
  unfold line_complete. split.
  - intros H [m Hm]. apply H. exists m. split; [done | apply Hm].
  - intros H (m & Hm & _). apply H. by exists m.
Qed.

Lemma scan_lines_step sq l rest :
  scan_lines (l :: rest) sq
  = if line_test sq l then aget sq l.1.1 else scan_lines rest sq.
Proof. by destruct l as [[a b] c]. Qed.

Lemma scan_lines_Str ls sq m :
  scan_lines ls sq = Str m <->
  exists k l, ls !! k = Some l /\ line_wins sq l m /\
    forall j l', (j < k)%nat -> ls !! j = Some l' -> ~ line_complete sq l'.
Proof.
  induction ls as [|l rest IH].
  - simpl. split; [done|]. by intros (k & l & ? & _).
  - rewrite scan_lines_step. destruct (line_test sq l) eqn:Ht.
    + destruct l as [[a b] c]. simpl.
      apply line_test_true in Ht as (m0 & Hw & Ha). rewrite Ha. split.
      * intros [= <-]. exists 0%nat, (a, b, c). split; [done|]. split; [done|]. lia.
      * intros ([|k] & l & Hl & Hw' & Hfirst).
        -- injection Hl as <-. destruct Hw as (_ & Ha0 & _), Hw' as (_ & Ha1 & _).
           congruence.
        -- exfalso. apply (Hfirst 0%nat (a, b, c)); [lia | done | by exists m0].
    + apply line_test_false in Ht. rewrite IH. split.
      * intros (k & l' & Hl & Hw & Hfirst). exists (S k), l'.
        split; [done|]. split; [done|]. intros [|j] l0 Hj Hl0.
        -- by injection Hl0 as <-.
        -- apply (Hfirst j); [lia | done].
      * intros ([|k] & l' & Hl & Hw & Hfirst).
        -- injection Hl as <-. exfalso. apply Ht. by exists m.
        -- exists k, l'. split; [done|]. split; [done|].
           intros j l0 Hj Hl0. apply (Hfirst (S j)); [lia | done].
Qed.

Lemma scan_lines_Null ls sq :
  scan_lines ls sq = Null <-> forall l, l ∈ ls -> ~ line_complete sq l.
Proof.
  induction ls as [|l rest IH].
  - simpl. split; [|done]. intros _ l Hl. by apply not_elem_of_nil in Hl.
  - rewrite scan_lines_step. destruct (line_test sq l) eqn:Ht.
    + destruct l as [[a b] c]. simpl.
      apply line_test_true in Ht as (m0 & Hw & Ha). rewrite Ha. split; [done|].
      intros H. exfalso. apply (H (a, b, c)); [left | by exists m0].
    + apply line_test_false in Ht. rewrite IH. split.
      * intros H l' [->|Hin]%elem_of_cons; auto.
      * intros H l' Hin. apply H. by right.
Qed.

(** The result is [null] or a non-empty mark, never [undefined]. *)
Lemma scan_lines_cases ls sq :
  scan_lines ls sq = Null \/
  exists m, scan_lines ls sq = Str m /\ m <> empty_cell.
Proof.
  induction ls as [|l rest IH]; [by left|].
  rewrite scan_lines_step. destruct (line_test sq l) eqn:Ht; [|done].
  destruct l as [[a b] c]. apply line_test_true in Ht as (m & Hw & Ha).
  right. exists m. split; [done | apply Hw].
Qed.

Lemma calculateWinner_truthy sq :
  truthy (calculateWinner sq) = true <-> calculateWinner sq <> Null.
Proof.
  unfold calculateWinner.
  destruct (scan_lines_cases lines sq) as [->|(m & -> & Hm)].
  - split; [discriminate | done].
  - split; [done|]. intros _. apply truthy_Str. eauto.
Qed.

Lemma calculateWinner_falsy sq :
  calculateWinner sq = Null -> truthy (calculateWinner sq) = false.
Proof. by intros ->. Qed.

End winner.

(** ** Coordinates *)

Lemma calculateCoordinate_out i :
  i < 0 \/ 8 < i -> calculateCoordinate i = None.
Proof.
  intros Hi. unfold calculateCoordinate, coordinateMap.
  repeat (rewrite lookup_insert_ne by lia). apply lookup_empty.
Qed.

Lemma calculateCoordinate_in i :
  0 <= i <= 8 -> calculateCoordinate i = Some (spec_coordinate i).
Proof.
  intros Hi.
  assert (i = 0 \/ i = 1 \/ i = 2 \/ i = 3 \/ i = 4 \/ i = 5 \/ i = 6
          \/ i = 7 \/ i = 8) as Hcases by lia.
  repeat (destruct Hcases as [->|Hcases]; [by vm_compute|]).
  subst i. by vm_compute.
Qed.

(** ** The handlers on a state whose [step] points into [history] *)

Section handlers.

Lemma list_get_Some {A} (l : list A) i x :
  list_get l i = Some x <-> 0 <= i /\ l !! Z.to_nat i = Some x.
Proof. unfold list_get. case_decide; [tauto|]. split; [done | tauto]. Qed.

Lemma list_get_in_range {A} (l : list A) i :
  0 <= i < Z.of_nat (length l) -> is_Some (list_get l i).
Proof.
  intros Hi. unfold list_get. rewrite decide_True by lia.
  apply lookup_lt_is_Some. lia.
Qed.

Lemma list_get_out_of_range {A} (l : list A) i :
  i < 0 \/ Z.of_nat (length l) <= i -> list_get l i = None.
Proof.
  intros Hi. unfold list_get. case_decide; [|done].
  apply lookup_ge_None. lia.
Qed.

Lemma list_slice0_take {A} (l : list A) (n : Z) :
  0 <= n -> list_slice0 l (n + 1) = take (S (Z.to_nat n)) l.
Proof.
  intros Hn. unfold list_slice0. rewrite decide_False by lia.
  destruct (decide (n + 1 <= Z.of_nat (length l))).
  - rewrite Z.min_l by lia. f_equal. lia.
  - rewrite Z.min_r by lia. rewrite Nat2Z.id.
    rewrite !take_ge; [done | lia | lia].
Qed.

Lemma handleClick_current i s current :
  list_get (history s) (step s) = Some current ->
  handleClick i s =
    if truthy (calculateWinner (aslice (squares current)))
       || truthy (aget (aslice (squares current)) i)
    then Ok s
    else Ok (clicked i s current).
Proof.
  intros [Hstep Hcur]%list_get_Some.
  assert (Z.to_nat (step s) < length (history s))%nat as Hlt
    by (apply lookup_lt_is_Some; eauto).
  unfold handleClick. rewrite list_slice0_take by done.
  unfold list_get. rewrite decide_True by done.
  rewrite lookup_take_lt by lia. rewrite Hcur.
  destruct (_ || _); [done|].
  unfold clicked, mark. do 2 f_equal.
  rewrite length_take_le by lia. lia.
Qed.

Lemma handleClick_throws i s :
  list_get (history s) (step s) = None -> handleClick i s = Throw TypeError.
Proof.
  intros Hnone. unfold handleClick.
  destruct (decide (0 <= step s)) as [Hs|Hs].
  - rewrite list_slice0_take by done. unfold list_get in *.
    rewrite decide_True in * by done.
    rewrite lookup_take_lt by lia. by rewrite Hnone.
  - unfold list_get. by rewrite decide_False by done.
Qed.

Lemma render_throws s :
  list_get (history s) (step s) = None -> render s = Throw TypeError.
Proof. intros Hnone. unfold render. by rewrite Hnone. Qed.

End handlers.

(** ** Reachable states and the invariant they satisfy *)

Section invariant.

Lemma rem2_even k : (Z.rem k 2 =? 0) = Z.even k.
Proof.
  apply eq_iff_eq_true. rewrite Z.eqb_eq, Z.even_spec. split.
  - intros Hr. exists (Z.quot k 2).
    pose proof (Z.quot_rem' k 2). lia.
  - intros [m ->]. rewrite Z.mul_comm. by apply Z.rem_mul.
Qed.

Lemma game_inv_initial : game_inv initial.
Proof.
  split; simpl; try done.
  intros [|m] e; [|done]. intros [= <-]. apply board9_fill.
Qed.

Lemma game_inv_current s :
  game_inv s -> exists current,
    current_entry s = Some current /\ board9 (squares current).
Proof.
  intros Hinv. destruct (list_get_in_range (history s) (step s)) as [c Hc].
  { apply Hinv. }
  exists c. split; [done|].
  apply list_get_Some in Hc as [_ Hc]. by eapply inv_boards.
Qed.

Lemma game_inv_clicked i s current :
  game_inv s -> cell_index i -> current_entry s = Some current ->
  calculateWinner (squares current) = Null ->
  aget (squares current) i = Str empty_cell ->
  game_inv (clicked i s current).
Proof.
  intros Hinv Hi Hcur Hwin Hcell.
  pose proof (inv_step s Hinv) as Hstep.
  apply list_get_Some in Hcur as [_ Hcur].
  assert (board9 (squares current)) as Hb by (by eapply inv_boards).
  set (n := Z.to_nat (step s)) in *.
  assert (length (take (S n) (history s)) = S n) as Hlen
    by (rewrite length_take_le; lia).
  split; unfold clicked; fold n; simpl.
  - rewrite length_app, Hlen. simpl. lia.
  - rewrite (inv_parity s Hinv), Z.even_add.
    by destruct (Z.even (step s)).
  - rewrite lookup_app_l by lia. rewrite lookup_take_lt by lia.
    apply Hinv.
  - intros m e [Hm | [_ Hm]]%lookup_app_Some.
    + apply lookup_take_Some in Hm as [Hm _]. by eapply inv_boards.
    + destruct (m - _)%nat; [|done]. injection Hm as <-. simpl.
      rewrite aslice_board9 by done. apply aset_board9; [done..|].
      unfold mark. destruct (xIsNext s); tauto.
  - intros m p e Hp He.
    apply lookup_app_Some in He as [He | [Hge He]].
    + apply lookup_take_Some in He as [He Hlt].
      rewrite lookup_app_l in Hp by lia.
      rewrite lookup_take_lt in Hp by lia.
      by eapply inv_moves.
    + rewrite Hlen in *. replace (S m - S n)%nat with (m - n)%nat in He by lia.
      destruct (m - n)%nat eqn:Hmn; [|done]. injection He as <-. simpl.
      assert (m = n) as -> by (apply lookup_lt_Some in Hp;
        rewrite length_app, Hlen in Hp; simpl in Hp; lia).
      rewrite lookup_app_l in Hp by lia.
      rewrite lookup_take_lt in Hp by lia.
      assert (p = current) as -> by congruence.
      exists i. rewrite aslice_board9 by done.
      repeat split; try done; try apply Hi.
      rewrite (inv_parity s Hinv). unfold n. by rewrite Z2Nat.id by lia.
Qed.

Lemma game_inv_jumpTo k s :
  game_inv s -> 0 <= k < Z.of_nat (length (history s)) ->
  game_inv {| history := history s; step := k; xIsNext := (Z.rem k 2 =? 0) |}.
Proof.
  intros Hinv Hk. split; simpl; try apply Hinv; [done|]. apply rem2_even.
Qed.

(** On a state satisfying the invariant a click on one of the nine cells
    never throws: it is either refused or installs [clicked]. *)
Lemma handleClick_cases i s :
  game_inv s -> cell_index i ->
  exists current, current_entry s = Some current /\
    ( (calculateWinner (squares current) <> Null \/
       aget (squares current) i <> Str empty_cell) /\
      handleClick i s = Ok s
      \/
      legal_move i s /\ handleClick i s = Ok (clicked i s current) ).
Proof.
  intros Hinv Hi. destruct (game_inv_current s Hinv) as (current & Hcur & Hb).
  exists current. split; [done|].
  rewrite (handleClick_current i s current Hcur), aslice_board9 by done.
  destruct (truthy (calculateWinner (squares current))) eqn:Hw; cbn [orb].
  { left. split; [|done]. left. by apply calculateWinner_truthy. }
  destruct (board9_aget_in (squares current) i Hb Hi) as [c Hc].
  rewrite Hc. destruct c as [|ch r]; cbn [truthy].
  - right. split; [|done]. exists current. split; [done|]. split; [|done].
    destruct (scan_lines_cases lines (squares current)) as [H|(m & H & Hm)];
      [done|].
    unfold calculateWinner in Hw. rewrite H in Hw. by destruct m.
  - left. split; [|done]. right. discriminate.
Qed.

(** A legal move is not one the guard refuses. *)
Lemma legal_move_not_refused i s current :
  legal_move i s -> current_entry s = Some current ->
  ~ (calculateWinner (squares current) <> Null \/
     aget (squares current) i <> Str empty_cell).
Proof.
  intros (c & Hc & Hw & He) Hcur. assert (c = current) as -> by congruence.
  intros [H|H]; by apply H.
Qed.

Lemma game_inv_handleClick i s s' :
  game_inv s -> cell_index i -> handleClick i s = Ok s' -> game_inv s'.
Proof.
  intros Hinv Hi Hs'.
  destruct (handleClick_cases i s Hinv Hi)
    as (current & Hcur & [[_ H] | [Hlegal H]]);
    rewrite H in Hs'; injection Hs' as <-; [done|].
  destruct Hlegal as (c & Hc & Hw & He).
  assert (c = current) as -> by congruence.
  by apply game_inv_clicked.
Qed.

Lemma reachable_inv s : reachable s -> game_inv s.
Proof.
  induction 1 as [| s i s' _ IH Hi Hs' | s k s' _ IH Hk Hs'].
  - apply game_inv_initial.
  - by eapply game_inv_handleClick.
  - injection Hs' as <-. by apply game_inv_jumpTo.
Qed.

Lemma played_reachable s : played s -> reachable s.
Proof.
  induction 1 as [| s i s' _ IH Hi _ Hs']; [constructor|].
  by eapply reach_click.
Qed.

Lemma run_reachable es : forall s s',
  reachable s -> run es s = Some s' -> reachable s'.
Proof.
  induction es as [|e r IH]; intros s s' Hs; simpl.
  - by intros [= <-].
  - destruct (event_in_range e s) eqn:Hr; [|done].
    destruct (dispatch e s) as [s1|] eqn:Hd; [|done].
    apply IH. destruct e as [i|k]; simpl in *; apply bool_decide_eq_true in Hr.
    + by eapply reach_click.
    + by eapply reach_jump.
Qed.

Lemma state_after_reachable es :
  run es initial <> None -> reachable (state_after es).
Proof.
  unfold state_after. destruct (run es initial) as [s|] eqn:Hs; [|done].
  intros _. simpl. eapply run_reachable; [constructor | done].
Qed.

(** A legal move always installs [clicked], whatever the index. *)
Lemma handleClick_legal i s current :
  current_entry s = Some current -> board9 (squares current) ->
  calculateWinner (squares current) = Null ->
  truthy (aget (squares current) i) = false ->
  handleClick i s = Ok (clicked i s current).
Proof.
  intros Hcur Hb Hw Hc.
  rewrite (handleClick_current i s current Hcur), aslice_board9 by done.
  by rewrite Hw, Hc.
Qed.

End invariant.

(** Concrete states are reached by running their events. *)
Ltac reach_by_run := apply state_after_reachable; by vm_compute.

(** ** Claims about [handleClick] *)

(** C1. In every reachable state and for every cell index 0..8: when the
    board at the current step already has a winner, or the clicked cell is
    not empty, [handleClick] returns without throwing and leaves the state
    as it was: [history], [step] and [xIsNext] are unchanged. *)
Theorem handleClick_illegal_noop (s : GameState) (i : Z) (current : entry) :
  reachable s ->
  cell_index i ->
  current_entry s = Some current ->
  calculateWinner (squares current) <> Null \/
    aget (squares current) i <> Str empty_cell ->
  exists s', handleClick i s = Ok s' /\
    history s' = history s /\ step s' = step s /\ xIsNext s' = xIsNext s.
Proof.
  intros Hs Hi Hcur Hbad. exists s.
  destruct (handleClick_cases i s (reachable_inv s Hs) Hi)
    as (c & Hc & [[_ H] | [Hlegal _]]); [done|].
  by destruct (legal_move_not_refused i s current Hlegal Hcur).
Qed.

Lemma handleClick_illegal_noop_witness :
  let s := state_after [Click 0] in
  exists current,
    reachable s /\ cell_index 0 /\ current_entry s = Some current /\
    aget (squares current) 0 = Str "X" /\
    exists s', handleClick 0 s = Ok s' /\
      history s' = history s /\ step s' = step s /\ xIsNext s' = xIsNext s.
Proof.
  intros s.
  assert (reachable s) as Hs by reach_by_run.
  destruct (game_inv_current s (reachable_inv s Hs)) as (current & Hcur & _).
  assert (aget (squares current) 0 = Str "X") as Hx.
  { vm_compute in Hcur. injection Hcur as <-. by vm_compute. }
  exists current. split; [done|]. split; [unfold cell_index; lia|].
  split; [done|]. split; [done|].
  apply (handleClick_illegal_noop s 0 current Hs);
    [unfold cell_index; lia | done |].
  right. rewrite Hx. discriminate.
Defined.

(** C2. Branch truncation: in a reachable state, for a step [k] inside
    [history] whose board has no winner and whose cell [i] (0..8) is empty,
    [jumpTo k] followed by [handleClick i] yields a history of length
    [k + 2]: the entries 0..k as they were before the jump, then the one
    new entry; whatever stood after index [k] is gone. *)
Theorem jumpTo_then_click_truncates (s : GameState) (k i : Z) (e : entry) :
  reachable s ->
  0 <= k < Z.of_nat (length (history s)) ->
  history s !! Z.to_nat k = Some e ->
  calculateWinner (squares e) = Null ->
  cell_index i ->
  aget (squares e) i = Str empty_cell ->
  exists s1 s2 new,
    jumpTo k s = Ok s1 /\ handleClick i s1 = Ok s2 /\
    Z.of_nat (length (history s2)) = k + 2 /\
    take (S (Z.to_nat k)) (history s2) = take (S (Z.to_nat k)) (history s) /\
    history s2 = take (S (Z.to_nat k)) (history s) ++ [new] /\
    squares new = aset (squares e) i (mark (Z.even k)) /\
    step s2 = k + 1.
Proof.
  intros Hs Hk He Hw Hi Hcell.
  set (s1 := {| history := history s; step := k; xIsNext := (Z.rem k 2 =? 0) |}).
  assert (game_inv s1) as Hinv1
    by (apply game_inv_jumpTo; [by apply reachable_inv | done]).
  assert (current_entry s1 = Some e) as Hcur
    by (apply list_get_Some; simpl; split; [lia | done]).
  assert (board9 (squares e)) as Hb
    by (eapply inv_boards; [by apply reachable_inv | done]).
  exists s1, (clicked i s1 e), (mkEntry (aset (aslice (squares e)) i
    (mark (xIsNext s1))) (calculateCoordinate i)).
  assert (length (take (S (Z.to_nat k)) (history s)) = S (Z.to_nat k)) as Hlen
    by (rewrite length_take_le; lia).
  split; [done|]. split.
  { apply handleClick_legal; try done. by rewrite Hcell. }
  unfold clicked; simpl. split; [|split; [|split; [done|split; [|done]]]].
  - rewrite length_app, Hlen. simpl. lia.
  - by rewrite take_app_length'.
  - by rewrite aslice_board9, rem2_even.
Qed.

Lemma jumpTo_then_click_truncates_witness :
  let s := state_after [Click 0; Click 4; Click 1] in
  exists e,
    reachable s /\ 0 <= 1 < Z.of_nat (length (history s)) /\
    history s !! Z.to_nat 1 = Some e /\
    exists s1 s2 new,
      jumpTo 1 s = Ok s1 /\ handleClick 8 s1 = Ok s2 /\
      Z.of_nat (length (history s2)) = 1 + 2 /\
      take (S (Z.to_nat 1)) (history s2) = take (S (Z.to_nat 1)) (history s) /\
      history s2 = take (S (Z.to_nat 1)) (history s) ++ [new] /\
      squares new = aset (squares e) 8 (mark (Z.even 1)) /\
      step s2 = 1 + 1.
Proof.
  intros s.
  assert (reachable s) as Hs by reach_by_run.
  assert (0 <= 1 < Z.of_nat (length (history s))) as Hk by (by vm_compute).
  destruct (lookup_lt_is_Some_2 (history s) (Z.to_nat 1)) as [e He];
    [vm_compute; lia|].
  exists e. split; [done|]. split; [done|]. split; [done|].
  assert (e = mkEntry (aset (Array_fill 9 empty_cell) 0 "X")
                      (calculateCoordinate 0)) as Heq.
  { vm_compute in He. injection He as <-. by vm_compute. }
  apply (jumpTo_then_click_truncates s 1 8 e Hs Hk He).
  - rewrite Heq. by vm_compute.
  - unfold cell_index; lia.
  - rewrite Heq. by vm_compute.
Defined.

(** ** Claims about [jumpTo] *)

(** C3, as the spec states it, fails: [jumpTo 5] on the initial state, whose
    history has one entry, returns normally with [step = 5]; nothing is
    thrown and nothing is clamped. *)
Lemma jumpTo_out_of_range_accepted :
  ~ (0 <= 5 < Z.of_nat (length (history initial))) /\
  jumpTo 5 initial
    = Ok {| history := history initial; step := 5; xIsNext := false |} /\
  forall e, jumpTo 5 initial <> Throw e.
Proof. split; [simpl; lia|]. split; [reflexivity | discriminate]. Qed.

(** C3, amended. [jumpTo] has no range check: for a step outside
    [0, history.length) it returns normally, stores the step as given (no
    clamping), sets [xIsNext] to [step % 2 === 0] and leaves [history]
    alone.  The state it installs has no current board, so the next
    [handleClick] and the next [render] throw a [TypeError]. *)
Theorem jumpTo_out_of_range_stored (s : GameState) (k : Z) :
  k < 0 \/ Z.of_nat (length (history s)) <= k ->
  exists s', jumpTo k s = Ok s' /\
    history s' = history s /\ step s' = k /\
    xIsNext s' = (Z.rem k 2 =? 0) /\
    (forall i, handleClick i s' = Throw TypeError) /\
    render s' = Throw TypeError.
Proof.
  intros Hk. eexists. split; [reflexivity|]. simpl.
  assert (list_get (history s) k = None) as Hnone
    by (by apply list_get_out_of_range).
  repeat split.
  - intros i. by apply handleClick_throws.
  - by apply render_throws.
Qed.

Lemma jumpTo_out_of_range_stored_witness :
  (5 < 0 \/ Z.of_nat (length (history initial)) <= 5) /\
  exists s', jumpTo 5 initial = Ok s' /\
    history s' = history initial /\ step s' = 5 /\
    xIsNext s' = (Z.rem 5 2 =? 0) /\
    (forall i, handleClick i s' = Throw TypeError) /\
    render s' = Throw TypeError.
Proof.
  assert (5 < 0 \/ Z.of_nat (length (history initial)) <= 5) as H
    by (right; simpl; lia).
  split; [exact H | apply (jumpTo_out_of_range_stored initial 5 H)].
Defined.

(** C7. In a reachable state, [jumpTo k] with [k] inside [history] changes
    [step] to [k] and [xIsNext] to the parity of [k], and nothing else:
    [history] is the same list.  For [k = 0] the current board becomes the
    all-empty board and X is next, with every later entry still stored. *)
Theorem jumpTo_only_moves_step (s : GameState) (k : Z) :
  reachable s ->
  0 <= k < Z.of_nat (length (history s)) ->
  exists s', jumpTo k s = Ok s' /\
    history s' = history s /\ step s' = k /\ xIsNext s' = Z.even k /\
    (k = 0 ->
       exists e, current_entry s' = Some e /\
         squares e = Array_fill 9 empty_cell /\
         xIsNext s' = true /\
         length (history s') = length (history s)).
Proof.
  intros Hs Hk. eexists. split; [reflexivity|]. simpl.
  split; [done|]. split; [done|]. split; [apply rem2_even|].
  intros ->. eexists. split.
  - apply list_get_Some. simpl. split; [lia|].
    apply (inv_first s (reachable_inv s Hs)).
  - done.
Qed.

Lemma jumpTo_only_moves_step_witness :
  let s := state_after [Click 0; Click 4; Click 1] in
  reachable s /\ 0 <= 0 < Z.of_nat (length (history s)) /\
  exists s', jumpTo 0 s = Ok s' /\
    history s' = history s /\ step s' = 0 /\ xIsNext s' = Z.even 0 /\
    (0 = 0 ->
       exists e, current_entry s' = Some e /\
         squares e = Array_fill 9 empty_cell /\
         xIsNext s' = true /\
         length (history s') = length (history s)).
Proof.
  intros s.
  assert (reachable s) as Hs by reach_by_run.
  assert (0 <= 0 < Z.of_nat (length (history s))) as Hk by (by vm_compute).
  split; [done|]. split; [done|].
  apply (jumpTo_only_moves_step s 0 Hs Hk).
Defined.

(** ** Claims about the pure helpers *)

(** C4. [calculateWinner] scans the eight lines in the order rows, columns,
    diagonals.  It returns the mark [m] exactly when some line holds three
    equal non-empty cells [m] and no line listed before it is complete, and
    it returns [null] exactly when no line is complete.  The three boards
    of the spec evaluate to X, [null] and X. *)
Theorem calculateWinner_first_complete_line :
  lines = [ (0, 1, 2); (3, 4, 5); (6, 7, 8);
            (0, 3, 6); (1, 4, 7); (2, 5, 8);
            (0, 4, 8); (2, 4, 6) ] /\
  (forall (sq : array) (m : string),
     calculateWinner sq = Str m <->
     exists (k : nat) l, lines !! k = Some l /\ line_wins sq l m /\
       forall (j : nat) l', (j < k)%nat -> lines !! j = Some l' ->
         ~ line_complete sq l') /\
  (forall sq : array,
     calculateWinner sq = Null <->
     forall l, l ∈ lines -> ~ line_complete sq l) /\
  (forall sq : array, calculateWinner sq <> Undefined) /\
  calculateWinner
    (array_of_list ["X"; "X"; "X"; empty_cell; empty_cell; empty_cell;
                    empty_cell; empty_cell; empty_cell]) = Str "X" /\
  calculateWinner
    (array_of_list ["X"; "O"; "X"; "O"; "X"; "O"; "O"; "X"; "O"]) = Null /\
  calculateWinner
    (array_of_list ["X"; empty_cell; empty_cell; empty_cell; "X";
                    empty_cell; empty_cell; empty_cell; "X"]) = Str "X".
Proof.
  split; [reflexivity|].
  split; [intros sq m; apply scan_lines_Str|].
  split; [intros sq; apply scan_lines_Null|].
  split.
  { intros sq. unfold calculateWinner.
    destruct (scan_lines_cases lines sq) as [->|(m & -> & _)]; discriminate. }
  split; [by vm_compute|]. split; by vm_compute.
Qed.

(** C8. For the nine cell indexes the lookup table of
    [calculateCoordinate] agrees with the formula
    [(column, row) = (i % 3 + 1, i / 3 + 1)]; indexes 0, 4, 8 and 2 map to
    (1,1), (2,2), (3,3) and (3,1). *)
Theorem calculateCoordinate_formula :
  (forall i : Z, cell_index i ->
     calculateCoordinate i = Some [i mod 3 + 1; i / 3 + 1]) /\
  calculateCoordinate 0 = Some [1; 1] /\
  calculateCoordinate 4 = Some [2; 2] /\
  calculateCoordinate 8 = Some [3; 3] /\
  calculateCoordinate 2 = Some [3; 1].
Proof.
  split; [intros i Hi; by apply calculateCoordinate_in|].
  repeat split; by vm_compute.
Qed.

(** ** Claims about reachable states *)

(** C5. In every reachable state [xIsNext] is true exactly when [step] is
    even; and a legal move made at step [s] writes X into the clicked cell
    when [s] is even and O when it is odd. *)
Theorem xIsNext_is_step_parity (s : GameState) :
  reachable s ->
  (xIsNext s = true <-> Z.Even (step s)) /\
  (forall i, cell_index i -> legal_move i s ->
     exists s' e, handleClick i s = Ok s' /\
       current_entry s' = Some e /\
       aget (squares e) i = Str (if Z.even (step s) then "X" else "O")).
Proof.
  intros Hs. pose proof (reachable_inv s Hs) as Hinv.
  split; [by rewrite (inv_parity s Hinv), Z.even_spec|].
  intros i Hi Hlegal.
  destruct (handleClick_cases i s Hinv Hi)
    as (current & Hcur & [[Hbad _] | [_ H]]).
  { by destruct (legal_move_not_refused i s current Hlegal Hcur). }
  pose proof (inv_step s Hinv) as Hstep.
  eexists _, _. split; [exact H|]. split.
  - apply list_get_Some. unfold clicked; simpl. split; [lia|].
    replace (Z.to_nat (step s + 1)) with
      (length (take (S (Z.to_nat (step s))) (history s)) + 0)%nat
      by (rewrite length_take_le; lia).
    by rewrite lookup_app_r, Nat.add_comm, Nat.add_sub by lia.
  - simpl. rewrite aget_aset_eq, (inv_parity s Hinv). done.
Qed.

Lemma xIsNext_is_step_parity_witness :
  let s := state_after [Click 0; Click 4; Jump 1] in
  reachable s /\ step s = 1 /\
  (xIsNext s = true <-> Z.Even (step s)) /\
  (forall i, cell_index i -> legal_move i s ->
     exists s' e, handleClick i s = Ok s' /\
       current_entry s' = Some e /\
       aget (squares e) i = Str (if Z.even (step s) then "X" else "O")).
Proof.
  intros s.
  assert (reachable s) as Hs by reach_by_run.
  split; [done|]. split; [by vm_compute|].
  apply (xIsNext_is_step_parity s Hs).
Defined.

(** C6. After any sequence of legal moves (no time travel) the history has
    exactly [step + 1] entries; and in every reachable state the first
    entry of [history] is the all-empty board. *)
Theorem history_length_and_first_board :
  (forall s, played s -> Z.of_nat (length (history s)) = step s + 1) /\
  (forall s, reachable s ->
     exists e, history s !! 0%nat = Some e /\
       squares e = Array_fill 9 empty_cell /\
       forall k, cell_index k -> aget (squares e) k = Str empty_cell).
Proof.
  split.
  - induction 1 as [| s i s' Hp IH Hi Hlegal Hs']; [done|].
    pose proof (reachable_inv s (played_reachable s Hp)) as Hinv.
    destruct (handleClick_cases i s Hinv Hi)
      as (current & Hcur & [[Hbad _] | [_ H]]).
    { by destruct (legal_move_not_refused i s current Hlegal Hcur). }
    rewrite H in Hs'. injection Hs' as <-. unfold clicked; simpl.
    pose proof (inv_step s Hinv). rewrite length_app, length_take_le by lia.
    simpl. lia.
  - intros s Hs. eexists. split; [apply (inv_first s (reachable_inv s Hs))|].
    split; [done|]. intros k Hk. simpl.
    rewrite aget_Array_fill. unfold cell_index in Hk. by rewrite decide_True by lia.
Qed.

Lemma history_length_and_first_board_witness :
  let s := state_after [Click 0; Click 4] in
  played s /\ Z.of_nat (length (history s)) = step s + 1 /\
  exists e, history s !! 0%nat = Some e /\
    squares e = Array_fill 9 empty_cell.
Proof.
  intros s.
  assert (played s) as Hp.
  { apply (played_move (state_after [Click 0]) 4); [|by vm_compute| |by vm_compute].
    - apply (played_move initial 0); [constructor|by vm_compute| |by vm_compute].
      eexists. split; [by vm_compute|]. split; by vm_compute.
    - eexists. split; [by vm_compute|]. split; by vm_compute. }
  split; [done|].
  destruct history_length_and_first_board as [Hlen Hfirst].
  split; [by apply Hlen|].
  destruct (Hfirst s (played_reachable s Hp)) as (e & He & Hsq & _). eauto.
Defined.

(** ** Claims about [render] *)

Section labels.

Lemma collect_Ok {A} (l : list (outcome A)) :
  (forall k m, l !! k = Some m -> exists a, m = Ok a) ->
  exists xs, collect l = Ok xs /\ length xs = length l /\
    forall k a, l !! k = Some (Ok a) -> xs !! k = Some a.
Proof.
  induction l as [|m r IH]; intros Hall.
  - exists []. by repeat split.
  - destruct (Hall 0%nat m eq_refl) as [a ->].
    destruct IH as (xs & Hxs & Hlen & Hlook).
    { intros k m' Hk. apply (Hall (S k)). done. }
    exists (a :: xs). simpl. rewrite Hxs. simpl. split; [done|].
    split; [by rewrite Hlen|].
    intros [|k] a' Hk; simpl in *; [congruence | by apply Hlook].
Qed.

Lemma append_assoc (a b c : string) : (a +:+ b) +:+ c = a +:+ (b +:+ c).
Proof.
  induction a as [|ch a IH]; [done|].
  change (String ch ((a +:+ b) +:+ c) = String ch (a +:+ (b +:+ c))).
  by rewrite IH.
Qed.

Lemma description_move m e col row :
  m <> 0%nat -> coords e = Some [col; row] ->
  description m e = Ok (move_label m col row).
Proof.
  intros Hm Hc. unfold description, move_label.
  rewrite decide_False by done. rewrite Hc. simpl.
  by rewrite !append_assoc.
Qed.

(** Every entry after the first carries the coordinates of a cell. *)
Lemma game_inv_coords s m e :
  game_inv s -> m <> 0%nat -> history s !! m = Some e ->
  exists i, cell_index i /\ coords e = Some [i mod 3 + 1; i / 3 + 1].
Proof.
  intros Hinv Hm He. destruct m as [|m]; [done|].
  destruct (lookup_lt_is_Some_2 (history s) m) as [p Hp].
  { apply lookup_lt_Some in He. lia. }
  destruct (inv_moves s Hinv m p e Hp He) as (i & Hi & _ & _ & _ & Hc).
  exists i. split; [done|]. rewrite Hc. by apply calculateCoordinate_in.
Qed.

End labels.

(** C9. In every reachable state [render] does not throw, and it labels the
    history buttons one per entry: entry 0 is "Go to start", and entry
    [m > 0] is "Go to move #m at (col, row)" where [col, row] are the
    coordinates stored in that entry, which are those of one of the nine
    cells. *)
Theorem historyDescriptions_labels (s : GameState) :
  reachable s ->
  exists ds, historyDescriptions s = Ok ds /\
    length ds = length (history s) /\
    forall (m : nat) e, history s !! m = Some e ->
      (m = 0%nat -> coords e = None /\ ds !! m = Some "Go to start") /\
      (m <> 0%nat ->
         exists col row, coords e = Some [col; row] /\
           1 <= col <= 3 /\ 1 <= row <= 3 /\
           ds !! m = Some ("Go to move #" +:+ pretty (Z.of_nat m) +:+ " at ("
                           +:+ pretty col +:+ ", " +:+ pretty row +:+ ")")).
Proof.
  intros Hs. pose proof (reachable_inv s Hs) as Hinv.
  destruct (game_inv_current s Hinv) as (current & Hcur & _).
  destruct (collect_Ok (imap description (history s))) as (ds & Hds & Hlen & Hlook).
  { intros k m. rewrite list_lookup_imap.
    destruct (history s !! k) as [e|] eqn:He; [|done]. intros [= <-].
    destruct (decide (k = 0%nat)) as [->|Hk]; [by eexists|].
    destruct (game_inv_coords s k e Hinv Hk He) as (i & _ & Hc).
    eexists. by apply description_move. }
  exists ds. split.
  { unfold historyDescriptions, render. unfold current_entry in Hcur.
    rewrite Hcur. simpl. by rewrite Hds. }
  split; [by rewrite Hlen, length_imap|].
  intros m e He. split.
  - intros ->. split.
    + rewrite (inv_first s Hinv) in He. by injection He as <-.
    + apply Hlook. by rewrite list_lookup_imap, He.
  - intros Hm. destruct (game_inv_coords s m e Hinv Hm He) as (i & Hi & Hc).
    unfold cell_index in Hi.
    exists (i mod 3 + 1), (i / 3 + 1). split; [done|].
    split; [pose proof (Z.mod_pos_bound i 3); lia|].
    split; [pose proof (Z.div_pos i 3);
            pose proof (Z.div_lt_upper_bound i 3 3); lia|].
    apply Hlook. rewrite list_lookup_imap, He. simpl.
    f_equal. by apply description_move.
Qed.

Lemma historyDescriptions_labels_witness :
  let s := state_after [Click 0; Click 4; Click 2] in
  reachable s /\
  historyDescriptions s
    = Ok ["Go to start"; "Go to move #1 at (1, 1)";
          "Go to move #2 at (2, 2)"; "Go to move #3 at (3, 1)"] /\
  exists ds, historyDescriptions s = Ok ds /\
    length ds = length (history s) /\
    forall (m : nat) e, history s !! m = Some e ->
      (m = 0%nat -> coords e = None /\ ds !! m = Some "Go to start") /\
      (m <> 0%nat ->
         exists col row, coords e = Some [col; row] /\
           1 <= col <= 3 /\ 1 <= row <= 3 /\
           ds !! m = Some ("Go to move #" +:+ pretty (Z.of_nat m) +:+ " at ("
                           +:+ pretty col +:+ ", " +:+ pretty row +:+ ")")).
Proof.
  intros s.
  assert (reachable s) as Hs by reach_by_run.
  split; [done|]. split; [by vm_compute|].
  apply (historyDescriptions_labels s Hs).
Defined.

(** ** The scenario of the spec, run on the model *)

Example scenario_x_wins :
  let s := state_after [Click 0; Click 4; Click 1; Click 3; Click 2] in
  (exists v, render s = Ok v /\ view_status v = "Winner is X!") /\
  handleClick 5 s = Ok s.
Proof. split; [eexists; split|]; by vm_compute. Qed.

(** After a click at index 9 the board has ten slots, a second click there
    is refused, and [render] throws on the entry without coordinates. *)
Example click_outside_then_render :
  exists s, handleClick 9 initial = Ok s /\
    handleClick 9 s = Ok s /\ render s = Throw TypeError.
Proof. eexists. split; [by vm_compute|]. split; by vm_compute. Qed.

(** An index of [2^32 - 1] is no array index: the mark becomes a plain
    property, [length] stays 9, [slice()] does not copy it, and the same
    click is accepted again. *)
Example click_at_index_limit :
  exists s s' e,
    handleClick 4294967295 initial = Ok s /\
    last (history s) = Some e /\ alen (squares e) = 9 /\
    aget (squares e) 4294967295 = Str "X" /\
    handleClick 4294967295 s = Ok s' /\ step s' = 2.
Proof.
  eexists _, _, _. split; [by vm_compute|]. split; [by vm_compute|].
  split; [by vm_compute|]. split; [by vm_compute|]. split; by vm_compute.
Qed.

(** * Further properties of the code *)

#[local] Set Warnings "-clear-no-such-hyp".

(** ** When the handlers and [render] throw *)

Section throwing.

Lemma outcome_exn {A} (r : outcome A) e : r = Throw e -> r = Throw TypeError.
Proof. intros ->. by destruct e. Qed.

Lemma handleClick_Ok_or_Throw i s :
  match current_entry s with
  | Some current => exists s', handleClick i s = Ok s'
  | None => handleClick i s = Throw TypeError
  end.
Proof.
  destruct (current_entry s) as [current|] eqn:Hcur.
  - rewrite (handleClick_current i s current Hcur).
    destruct (_ || _); eauto.
  - by apply handleClick_throws.
Qed.

Lemma current_entry_None s :
  current_entry s = None <->
  step s < 0 \/ Z.of_nat (length (history s)) <= step s.
Proof.
  unfold current_entry. split; [|apply list_get_out_of_range].
  intros Hnone. destruct (decide (0 <= step s < Z.of_nat (length (history s))))
    as [Hin|Hout]; [|lia].
  destruct (list_get_in_range _ _ Hin) as [c Hc]. congruence.
Qed.

Lemma collect_Throw {A} (l : list (outcome A)) :
  collect l = Throw TypeError <-> Throw TypeError ∈ l.
Proof.
  induction l as [|m r IH]; simpl.
  - split; [done | by intros ?%not_elem_of_nil].
  - destruct m as [a|[]]; simpl.
    + rewrite elem_of_cons, <- IH.
      destruct (collect r) as [xs|[]]; simpl; naive_solver.
    + split; [intros _; left | done].
Qed.

Lemma description_Throw m e :
  description m e = Throw TypeError <-> m <> 0%nat /\ coords e = None.
Proof.
  unfold description. case_decide; [naive_solver|].
  destruct (coords e); naive_solver.
Qed.

Lemma render_Throw s :
  render s = Throw TypeError <->
  current_entry s = None \/
  exists (m : nat) e, m <> 0%nat /\ history s !! m = Some e /\ coords e = None.
Proof.
  unfold render, current_entry.
  destruct (list_get (history s) (step s)) as [current|].
  - transitivity (collect (imap description (history s)) = Throw TypeError).
    { destruct (collect _) as [xs|[]]; simpl; naive_solver. }
    rewrite collect_Throw, list_elem_of_lookup. split.
    + intros (m & Hm). rewrite list_lookup_imap in Hm.
      destruct (history s !! m) as [e|] eqn:He; [|done].
      injection Hm as Hm. apply description_Throw in Hm as [Hm Hc].
      right. by exists m, e.
    + intros [?|(m & e & Hm & He & Hc)]; [done|]. exists m.
      rewrite list_lookup_imap, He. simpl. f_equal.
      by apply description_Throw.
  - split; [by left | done].
Qed.

End throwing.

(** X1. For every state and every integer index, [handleClick] throws a
    [TypeError] exactly when [step] does not point into [history]
    (negative, or at or past its length); in every other state it returns
    normally. *)
Theorem handleClick_throws_iff (s : GameState) (i : Z) :
  (handleClick i s = Throw TypeError <->
   step s < 0 \/ Z.of_nat (length (history s)) <= step s) /\
  (0 <= step s < Z.of_nat (length (history s)) <->
   exists s', handleClick i s = Ok s').
Proof.
  pose proof (handleClick_Ok_or_Throw i s) as H.
  pose proof (current_entry_None s) as Hn.
  destruct (current_entry s) as [current|].
  - destruct H as [s' Hs'].
    assert (0 <= step s < Z.of_nat (length (history s))) as Hin.
    { destruct (decide (0 <= step s < Z.of_nat (length (history s))));
        [done|]. exfalso.
      assert (Some current = None) by (apply Hn; lia). done. }
    rewrite Hs'. split.
    + split; [done | lia].
    + split; [eauto | done].
  - assert (step s < 0 \/ Z.of_nat (length (history s)) <= step s) as Hout
      by (by apply Hn).
    rewrite H. split; split; try done; try lia. by intros [s' ?].
Qed.

(** X2. For every state, [render] throws a [TypeError] exactly when [step]
    does not point into [history] or some entry other than the first has
    no coordinates. *)
Theorem render_throws_iff (s : GameState) :
  render s = Throw TypeError <->
  (step s < 0 \/ Z.of_nat (length (history s)) <= step s) \/
  exists (m : nat) e, m <> 0%nat /\ history s !! m = Some e /\ coords e = None.
Proof. by rewrite render_Throw, current_entry_None. Qed.

(** ** [calculateWinner] reads the nine cells only *)

Section winner_frame.

Lemma lines_in_board : Forall line_in_board lines.
Proof. repeat constructor; unfold cell_index; lia. Qed.

Lemma scan_lines_agree ls a b :
  Forall line_in_board ls ->
  (forall k, cell_index k -> aget a k = aget b k) ->
  scan_lines ls a = scan_lines ls b.
Proof.
  intros Hls Hab. induction Hls as [|[[x y] z] ls (Hx & Hy & Hz & _) _ IH];
    [done|].
  simpl. by rewrite (Hab x Hx), (Hab y Hy), (Hab z Hz), IH.
Qed.

End winner_frame.

(** X3. [calculateWinner] depends on the cells 0..8 alone: two arrays that
    agree there have the same winner.  In particular a write at an index
    outside 0..8 never changes the result. *)
Theorem calculateWinner_reads_nine_cells (a b : array) :
  (forall k, cell_index k -> aget a k = aget b k) ->
  calculateWinner a = calculateWinner b.
Proof. apply scan_lines_agree, lines_in_board. Qed.

Lemma calculateWinner_reads_nine_cells_witness :
  let a := array_of_list ["X"; "X"; "X"; "O"; "O"; empty_cell;
                          empty_cell; empty_cell; empty_cell] in
  (forall k, cell_index k -> aget a k = aget (aset a 12 "O") k) /\
  calculateWinner a = calculateWinner (aset a 12 "O").
Proof.
  intros a.
  assert (forall k, cell_index k -> aget a k = aget (aset a 12 "O") k) as H.
  { intros k Hk. unfold cell_index in Hk. rewrite aget_aset_ne; [done | lia]. }
  split; [exact H | apply (calculateWinner_reads_nine_cells _ _ H)].
Defined.

(** ** What [handleClick] does in any state *)

Section any_state.

Lemma handleClick_Ok_cases i s s' :
  handleClick i s = Ok s' ->
  exists current, current_entry s = Some current /\
    (s' = s \/ s' = clicked i s current).
Proof.
  intros Hs'. pose proof (handleClick_Ok_or_Throw i s) as H.
  destruct (current_entry s) as [current|] eqn:Hcur; [|congruence].
  exists current. split; [done|].
  rewrite (handleClick_current i s current Hcur) in Hs'.
  destruct (_ || _); injection Hs' as <-; auto.
Qed.

Lemma current_entry_lookup s current :
  current_entry s = Some current ->
  0 <= step s /\ history s !! Z.to_nat (step s) = Some current /\
  (Z.to_nat (step s) < length (history s))%nat.
Proof.
  intros [Hs Hc]%list_get_Some. split; [done|]. split; [done|].
  by eapply lookup_lt_Some.
Qed.

Lemma clicked_lookup_past i s current (m : nat) :
  current_entry s = Some current -> Z.of_nat m <= step s ->
  history (clicked i s current) !! m = history s !! m.
Proof.
  intros (Hs & Hc & Hlt)%current_entry_lookup Hm. unfold clicked; simpl.
  rewrite lookup_app_l by (rewrite length_take_le; lia).
  apply lookup_take_lt. lia.
Qed.

Lemma clicked_length i s current :
  current_entry s = Some current ->
  Z.of_nat (length (history (clicked i s current))) = step s + 2.
Proof.
  intros (Hs & Hc & Hlt)%current_entry_lookup. unfold clicked; simpl.
  rewrite length_app, length_take_le by lia. simpl. lia.
Qed.

Lemma driven_inv s :
  driven s ->
  xIsNext s = Z.even (step s) /\
  history s !! 0%nat
  = Some {| squares := Array_fill 9 empty_cell; coords := None |}.
Proof.
  induction 1 as [| s e s' _ [IHp IHf] Hs']; [done|].
  destruct e as [i|k]; simpl in Hs'.
  - apply handleClick_Ok_cases in Hs' as (current & Hcur & [->| ->]); [done|].
    split.
    + unfold clicked; simpl. rewrite IHp, Z.even_add.
      by destruct (Z.even (step s)).
    + rewrite clicked_lookup_past; [done | done |].
      apply current_entry_lookup in Hcur. simpl. lia.
  - injection Hs' as <-. simpl. split; [by rewrite rem2_even | done].
Qed.

End any_state.

(** X4. Whatever integers the two handlers are called with (any cell
    index, any step, in range or not), the stored flag never goes out of
    step: [xIsNext] is true exactly when [step] is even, and the first
    entry of [history] is still the all-empty board without coordinates. *)
Theorem driven_parity_and_first_entry (s : GameState) :
  driven s ->
  (xIsNext s = true <-> Z.Even (step s)) /\
  history s !! 0%nat
  = Some {| squares := Array_fill 9 empty_cell; coords := None |}.
Proof.
  intros [Hp Hf]%driven_inv. split; [|done].
  by rewrite Hp, Z.even_spec.
Qed.

Lemma driven_parity_and_first_entry_witness :
  exists s,
    dispatch (Click 12) initial = Ok s /\
    driven {| history := history s; step := -3; xIsNext := false |} /\
    ((false = true <-> Z.Even (-3)) /\
     history s !! 0%nat
     = Some {| squares := Array_fill 9 empty_cell; coords := None |}).
Proof.
  destruct (handleClick 12 initial) as [s|] eqn:Hs; [|by vm_compute in Hs].
  exists s. split; [exact Hs|].
  assert (driven {| history := history s; step := -3; xIsNext := false |})
    as Hd.
  { apply (driven_event s (Jump (-3))); [|done].
    by apply (driven_event initial (Click 12)); [constructor|]. }
  split; [exact Hd|].
  apply (driven_parity_and_first_entry _ Hd).
Defined.

(** X5. [handleClick] never rewrites the past: in every state and for every
    integer index, when it returns, each entry at or before the current
    step is what it was; and either nothing changed at all, or the history
    now ends right after the new entry at [step + 1]. *)
Theorem handleClick_keeps_past (s s' : GameState) (i : Z) :
  handleClick i s = Ok s' ->
  (forall m : nat, Z.of_nat m <= step s -> history s' !! m = history s !! m) /\
  (s' = s \/
   Z.of_nat (length (history s')) = step s + 2 /\ step s' = step s + 1 /\
   xIsNext s' = negb (xIsNext s)).
Proof.
  intros (current & Hcur & [->| ->])%handleClick_Ok_cases.
  - split; [done | by left].
  - split; [intros m Hm; by apply clicked_lookup_past|].
    right. split; [by apply clicked_length | done].
Qed.

Lemma handleClick_keeps_past_witness :
  let s := state_after [Click 0; Click 4; Click 8; Jump 1] in
  exists s',
    handleClick 2 s = Ok s' /\
    (forall m : nat, Z.of_nat m <= step s -> history s' !! m = history s !! m) /\
    (s' = s \/
     Z.of_nat (length (history s')) = step s + 2 /\ step s' = step s + 1 /\
     xIsNext s' = negb (xIsNext s)).
Proof.
  intros s. destruct (handleClick 2 s) as [s'|] eqn:Hs';
    [|by vm_compute in Hs'].
  exists s'. split; [done|]. apply (handleClick_keeps_past s s' 2 Hs').
Defined.

(** ** A click outside the board *)

Section outside.

Lemma aget_aslice a k : 0 <= k < alen a -> aget (aslice a) k = aget a k.
Proof.
  intros Hk. unfold aget, aslice; simpl.
  destruct (elems a !! k) as [x|] eqn:E.
  - by rewrite (map_lookup_filter_Some_2 _ _ k x E).
  - rewrite map_lookup_filter_None_2; [done | by left].
Qed.

Lemma nine_slots_fill : nine_slots (Array_fill 9 empty_cell).
Proof.
  split; [done|]. intros k Hk. rewrite Array_fill_lookup.
  unfold cell_index in Hk. rewrite decide_True by lia. eauto.
Qed.

Lemma nine_slots_aset_aslice a i v :
  nine_slots a -> nine_slots (aset (aslice a) i v).
Proof.
  intros [Hlen Hdom]. split.
  - unfold aset, aslice; simpl. case_decide; lia.
  - intros k Hk. unfold aset; simpl.
    destruct (decide (i = k)) as [->|Hne];
      [rewrite lookup_insert_eq; eauto|].
    rewrite lookup_insert_ne by done.
    destruct (Hdom k Hk) as [x Hx]. exists x.
    apply map_lookup_filter_Some_2; [done|]. simpl.
    unfold cell_index in Hk. lia.
Qed.

Lemma calculateWinner_aslice a :
  nine_slots a -> calculateWinner (aslice a) = calculateWinner a.
Proof.
  intros [Hlen _]. apply scan_lines_agree; [apply lines_in_board|].
  intros k Hk. apply aget_aslice. unfold cell_index in Hk. lia.
Qed.

Lemma driven_boards s :
  driven s -> forall (m : nat) e, history s !! m = Some e ->
  nine_slots (squares e).
Proof.
  induction 1 as [| s e s' _ IH Hs'].
  - intros [|m] e; [|done]. intros [= <-]. apply nine_slots_fill.
  - destruct e as [i|k]; simpl in Hs'; [|by injection Hs' as <-].
    apply handleClick_Ok_cases in Hs' as (current & Hcur & [->| ->]);
      [done|].
    apply current_entry_lookup in Hcur as (_ & Hlook & _).
    intros m e [Hm | [_ Hm]]%lookup_app_Some.
    + apply lookup_take_Some in Hm as [Hm _]. by eapply IH.
    + destruct (m - _)%nat; [|done]. injection Hm as <-. simpl.
      apply nine_slots_aset_aslice. by eapply IH.
Qed.

Lemma reachable_driven s : reachable s -> driven s.
Proof.
  induction 1 as [| s i s' _ IH _ Hs' | s k s' _ IH _ Hs'].
  - constructor.
  - by apply (driven_event s (Click i)).
  - by apply (driven_event s (Jump k)).
Qed.

End outside.

(** C10, as stated, fails: after one click at index 9 on a new game the
    current board has no winner and 9 is outside 0..8, yet the copy of the
    board holds X at index 9 and a second click there changes nothing. *)
Lemma handleClick_outside_board_refused :
  exists s current,
    handleClick 9 initial = Ok s /\
    current_entry s = Some current /\
    (9 < 0 \/ 8 < 9) /\
    calculateWinner (squares current) = Null /\
    aget (aslice (squares current)) 9 = Str "X" /\
    handleClick 9 s = Ok s.
Proof.
  eexists _, _. split; [by vm_compute|]. split; [by vm_compute|].
  split; [lia|]. split; [by vm_compute|]. split; by vm_compute.
Qed.

(** C10, amended.  Take any state the two handlers produce, whatever
    integers they were given, whose current board has no winner, and an
    index outside 0..8 at which the copy of that board made by [slice()]
    holds nothing; this is so in every state reached by clicks on the
    cells 0..8 and jumps to existing steps.  Then the click is not
    refused: the slot read by the guard is absent ([undefined], falsy),
    [calculateCoordinate] yields [undefined], and [handleClick] installs a
    different state whose history is the old one cut after [step] plus one
    new entry without coordinates, with [step] advanced by one. *)
Theorem handleClick_outside_board (s : GameState) (i : Z) (current : entry) :
  driven s ->
  current_entry s = Some current ->
  i < 0 \/ 8 < i ->
  calculateWinner (squares current) = Null ->
  reachable s \/ aget (aslice (squares current)) i = Undefined ->
  aget (aslice (squares current)) i = Undefined /\
  calculateCoordinate i = None /\
  exists s', handleClick i s = Ok s' /\ s' <> s /\
    history s'
      = take (S (Z.to_nat (step s))) (history s)
        ++ [ {| squares := aset (aslice (squares current)) i
                             (mark (xIsNext s));
                coords := None |} ] /\
    step s' = step s + 1 /\
    xIsNext s' = negb (xIsNext s).
Proof.
  intros Hd Hcur Hi Hw Habs.
  pose proof Hcur as (_ & Hlook & _)%current_entry_lookup.
  pose proof (driven_boards s Hd _ current Hlook) as Hnine.
  assert (aget (aslice (squares current)) i = Undefined) as Hu.
  { destruct Habs as [Hr|Ha]; [|done].
    assert (board9 (squares current)) as Hb
      by (eapply inv_boards; [by apply reachable_inv | done]).
    rewrite aslice_board9 by done. by apply board9_aget_out. }
  split; [done|]. split; [by apply calculateCoordinate_out|].
  exists (clicked i s current). split.
  { rewrite (handleClick_current i s current Hcur).
    by rewrite calculateWinner_aslice, Hw, Hu. }
  split.
  { intros Heq. apply (f_equal step) in Heq. simpl in Heq. lia. }
  unfold clicked; simpl. by rewrite calculateCoordinate_out.
Qed.

Lemma handleClick_outside_board_witness :
  exists s current,
    handleClick 9 initial = Ok s /\
    driven s /\ current_entry s = Some current /\
    (10 < 0 \/ 8 < 10) /\
    calculateWinner (squares current) = Null /\
    (reachable s \/ aget (aslice (squares current)) 10 = Undefined) /\
    aget (aslice (squares current)) 10 = Undefined /\
    calculateCoordinate 10 = None /\
    exists s', handleClick 10 s = Ok s' /\ s' <> s /\
      history s'
        = take (S (Z.to_nat (step s))) (history s)
          ++ [ {| squares := aset (aslice (squares current)) 10
                               (mark (xIsNext s));
                  coords := None |} ] /\
      step s' = step s + 1 /\
      xIsNext s' = negb (xIsNext s).
Proof.
  destruct (handleClick 9 initial) as [s|] eqn:Hs; [|by vm_compute in Hs].
  assert (driven s) as Hd
    by (by apply (driven_event initial (Click 9)); [constructor|]).
  destruct (current_entry s) as [current|] eqn:Hcur.
  2: { vm_compute in Hs. injection Hs as <-. by vm_compute in Hcur. }
  assert (calculateWinner (squares current) = Null /\
          aget (aslice (squares current)) 10 = Undefined) as [Hw Ha].
  { vm_compute in Hs. injection Hs as <-.
    vm_compute in Hcur. injection Hcur as <-. split; by vm_compute. }
  assert (10 < 0 \/ 8 < 10) as Hi by lia.
  exists s, current. split; [done|]. split; [done|]. split; [done|].
  split; [done|]. split; [done|]. split; [by right|].
  apply (handleClick_outside_board s 10 current Hd Hcur Hi Hw (or_intror Ha)).
Defined.

(** ** Counting the marks on the boards of a game *)

Section counting.

Context {A : Type} (P Q : A -> Prop).
Context `{!forall x, Decision (P x)} `{!forall x, Decision (Q x)}.

Lemma filter_length_ext (l : list A) :
  (forall x, x ∈ l -> (P x <-> Q x)) ->
  length (filter P l) = length (filter Q l).
Proof.
  induction l as [|x l IH]; intros Hext; [done|].
  rewrite !filter_cons.
  assert (P x <-> Q x) as Hx by (apply Hext; left).
  assert (length (filter P l) = length (filter Q l)) as Hl
    by (apply IH; intros y Hy; apply Hext; by right).
  destruct (decide (P x)), (decide (Q x)); simpl; tauto || lia.
Qed.

Lemma filter_length_flip (l : list A) (i : A) :
  NoDup l -> i ∈ l -> ~ P i -> Q i ->
  (forall x, x <> i -> (P x <-> Q x)) ->
  length (filter Q l) = S (length (filter P l)).
Proof.
  intros Hnd Hi HP HQ Hext. induction Hnd as [|x l Hx Hnd IH];
    [by apply not_elem_of_nil in Hi|].
  rewrite !filter_cons. apply elem_of_cons in Hi as [<-|Hi].
  - rewrite (decide_True (P := Q i)), (decide_False (P := P i)) by done.
    simpl. f_equal.
    symmetry. apply filter_length_ext. intros y Hy. apply Hext.
    by intros ->.
  - assert (x <> i) as Hne by (by intros ->).
    specialize (IH Hi). pose proof (Hext x Hne) as Hiff.
    destruct (decide (P x)), (decide (Q x)); simpl; tauto || lia.
Qed.

Lemma filter_disjoint_length (l : list A) :
  (forall x, P x -> Q x -> False) ->
  (length (filter P l) + length (filter Q l) <= length l)%nat /\
  ((length (filter P l) + length (filter Q l))%nat = length l ->
   forall x, x ∈ l -> P x \/ Q x).
Proof.
  intros Hdis. induction l as [|x l [IHle IHall]];
    [split; [done | by intros _ x ?%not_elem_of_nil]|].
  rewrite !filter_cons.
  destruct (decide (P x)) as [HP|HP], (decide (Q x)) as [HQ|HQ]; simpl;
    try (by destruct (Hdis x)); (split; [lia|]); intros Hlen y Hy;
    apply elem_of_cons in Hy as [->|Hy]; auto; try lia; apply IHall; auto; lia.
Qed.

End counting.

Section marks.

Lemma count_mark_aset_same p i v :
  cell_index i -> aget p i <> Str v ->
  count_mark v (aset p i v) = S (count_mark v p).
Proof.
  intros Hi Hp. unfold count_mark.
  apply (filter_length_flip _ _ _ i); [apply NoDup_seqZ | | done | |].
  - apply elem_of_seqZ. unfold cell_index in Hi. lia.
  - apply aget_aset_eq.
  - intros x Hx. by rewrite aget_aset_ne.
Qed.

Lemma count_mark_aset_other p i v w :
  w <> v -> aget p i <> Str w ->
  count_mark w (aset p i v) = count_mark w p.
Proof.
  intros Hw Hp. unfold count_mark. apply filter_length_ext. intros x _.
  destruct (decide (i = x)) as [<-|Hne].
  - rewrite aget_aset_eq. split; [congruence | done].
  - by rewrite aget_aset_ne.
Qed.

Lemma count_marks_total a :
  (count_mark "X" a + count_mark "O" a <= 9)%nat /\
  ((count_mark "X" a + count_mark "O" a)%nat = 9%nat ->
   forall k, cell_index k -> aget a k = Str "X" \/ aget a k = Str "O").
Proof.
  unfold count_mark.
  destruct (filter_disjoint_length
              (fun k => aget a k = Str "X") (fun k => aget a k = Str "O")
              (seqZ 0 9)) as [Hle Hall]; [congruence|].
  rewrite length_seqZ in *. split; [lia|].
  intros Hlen k Hk. apply Hall; [lia|].
  apply elem_of_seqZ. unfold cell_index in Hk. lia.
Qed.

Lemma count_mark_line sq l w :
  line_in_board l -> line_wins sq l w -> (3 <= count_mark w sq)%nat.
Proof.
  destruct l as [[a b] c].
  intros (Ha & Hb & Hc & Hab & Hac & Hbc) (_ & Hwa & Hwb & Hwc).
  unfold count_mark, cell_index in *.
  change 3%nat with (length [a; b; c]).
  apply submseteq_length, NoDup_submseteq.
  - repeat constructor; set_solver.
  - intros x Hx. apply list_elem_of_filter.
    assert (x = a \/ x = b \/ x = c) as [->|[->| ->]] by set_solver;
      (split; [done | apply elem_of_seqZ; lia]).
Qed.

Lemma game_inv_counts s :
  game_inv s -> forall (m : nat) e, history s !! m = Some e ->
  (count_mark "X" (squares e) + count_mark "O" (squares e))%nat = m /\
  count_mark "X" (squares e) = (count_mark "O" (squares e) + odd_bit m)%nat.
Proof.
  intros Hinv. induction m as [|m IH]; intros e He.
  - rewrite (inv_first s Hinv) in He. injection He as <-. by vm_compute.
  - destruct (lookup_lt_is_Some_2 (history s) m) as [p Hp].
    { apply lookup_lt_Some in He. lia. }
    destruct (IH p Hp) as [Hsum Hdiff].
    destruct (inv_moves s Hinv m p e Hp He) as (i & Hi & Hcell & _ & -> & _).
    unfold odd_bit in *. rewrite Nat2Z.inj_succ, Z.even_succ, <- Z.negb_even.
    destruct (Z.even (Z.of_nat m)); simpl.
    + rewrite count_mark_aset_same, (count_mark_aset_other _ _ "X" "O");
        [lia | done | | done |]; rewrite Hcell; done.
    + rewrite count_mark_aset_same, (count_mark_aset_other _ _ "O" "X");
        [lia | done | | done |]; rewrite Hcell; done.
Qed.

Lemma game_inv_length s : game_inv s -> (length (history s) <= 10)%nat.
Proof.
  intros Hinv. pose proof (inv_step s Hinv) as Hstep.
  destruct (lookup_lt_is_Some_2 (history s) (pred (length (history s))))
    as [e He]; [lia|].
  destruct (game_inv_counts s Hinv _ e He) as [Hsum _].
  pose proof (count_marks_total (squares e)) as [Hle _]. lia.
Qed.

End marks.

(** X6. In every reachable state the board stored at index [m] of
    [history] carries exactly [m] marks: X and O have been placed equally
    often when [m] is even, and X once more when [m] is odd. *)
Theorem marks_count_by_step (s : GameState) (m : nat) (e : entry) :
  reachable s ->
  history s !! m = Some e ->
  (count_mark "X" (squares e) + count_mark "O" (squares e))%nat = m /\
  count_mark "X" (squares e)
  = (count_mark "O" (squares e) + (if Z.even (Z.of_nat m) then 0 else 1))%nat.
Proof.
  intros Hs He. by apply (game_inv_counts s (reachable_inv s Hs)).
Qed.

Lemma marks_count_by_step_witness :
  let s := state_after [Click 0; Click 4; Click 8; Jump 1] in
  exists e,
    reachable s /\ history s !! 3%nat = Some e /\
    (count_mark "X" (squares e) + count_mark "O" (squares e))%nat = 3%nat /\
    count_mark "X" (squares e)
    = (count_mark "O" (squares e) + (if Z.even (Z.of_nat 3) then 0 else 1))%nat.
Proof.
  intros s. assert (reachable s) as Hs by reach_by_run.
  destruct (lookup_lt_is_Some_2 (history s) 3) as [e He]; [vm_compute; lia|].
  exists e. split; [done|]. split; [done|].
  apply (marks_count_by_step s 3 e Hs He).
Defined.

(** X7. A game has at most nine moves: in every reachable state [step]
    points into [history], which holds at most ten entries, so [step] is
    at most 9. *)
Theorem at_most_nine_moves (s : GameState) :
  reachable s ->
  0 <= step s < Z.of_nat (length (history s)) /\
  (length (history s) <= 10)%nat /\ step s <= 9.
Proof.
  intros Hs. pose proof (reachable_inv s Hs) as Hinv.
  pose proof (game_inv_length s Hinv). pose proof (inv_step s Hinv). lia.
Qed.

Lemma at_most_nine_moves_witness :
  let s := state_after [Click 0; Click 2; Click 1; Click 3; Click 5;
                        Click 4; Click 6; Click 7; Click 8] in
  reachable s /\ length (history s) = 10%nat /\
  (0 <= step s < Z.of_nat (length (history s)) /\
   (length (history s) <= 10)%nat /\ step s <= 9).
Proof.
  intros s. assert (reachable s) as Hs by reach_by_run.
  split; [done|]. split; [by vm_compute|]. apply (at_most_nine_moves s Hs).
Defined.

(** X8. Once nine moves are on the current board ([step = 9]), every click
    on one of the nine cells is ignored, winner or not. *)
Theorem full_board_ignores_cells (s : GameState) (i : Z) :
  reachable s ->
  step s = 9 ->
  cell_index i ->
  handleClick i s = Ok s.
Proof.
  intros Hs Hstep Hi. pose proof (reachable_inv s Hs) as Hinv.
  destruct (game_inv_current s Hinv) as (current & Hcur & Hb).
  pose proof Hcur as (_ & Hlook & _)%current_entry_lookup.
  destruct (game_inv_counts s Hinv _ current Hlook) as [Hsum _].
  destruct (count_marks_total (squares current)) as [_ Hall].
  rewrite (handleClick_current i s current Hcur), aslice_board9 by done.
  destruct (Hall ltac:(lia) i Hi) as [-> | ->]; simpl;
    by rewrite orb_true_r.
Qed.

Lemma full_board_ignores_cells_witness :
  let s := state_after [Click 0; Click 2; Click 1; Click 3; Click 5;
                        Click 4; Click 6; Click 7; Click 8] in
  reachable s /\ step s = 9 /\ cell_index 4 /\ handleClick 4 s = Ok s.
Proof.
  intros s. assert (reachable s) as Hs by reach_by_run.
  assert (step s = 9) as H9 by (by vm_compute).
  assert (cell_index 4) as H4 by (unfold cell_index; lia).
  split; [done|]. split; [done|]. split; [done|].
  apply (full_board_ignores_cells s 4 Hs H9 H4).
Defined.

(** ** Who wins, and what the status line says *)

Section last_mover.

Lemma winner_after_move p i v w :
  calculateWinner p = Null ->
  calculateWinner (aset p i v) = Str w ->
  w = v.
Proof.
  unfold calculateWinner. intros Hnone Hwin.
  apply scan_lines_Str in Hwin as (k & [[a b] c] & Hl & (Hw & Ha & Hb & Hc) & _).
  destruct (decide (i = a)) as [->|Hia];
    [rewrite aget_aset_eq in Ha; congruence|].
  destruct (decide (i = b)) as [->|Hib];
    [rewrite aget_aset_eq in Hb; congruence|].
  destruct (decide (i = c)) as [->|Hic];
    [rewrite aget_aset_eq in Hc; congruence|].
  rewrite aget_aset_ne in Ha, Hb, Hc by done.
  exfalso. apply (proj1 (scan_lines_Null lines p) Hnone (a, b, c)).
  - by eapply list_elem_of_lookup_2.
  - by exists w.
Qed.

Lemma winner_marks sq w :
  calculateWinner sq = Str w -> (3 <= count_mark w sq)%nat.
Proof.
  unfold calculateWinner. intros (k & l & Hl & Hw & _)%scan_lines_Str.
  apply (count_mark_line sq l w); [|done].
  eapply Forall_lookup_1; [apply lines_in_board | done].
Qed.

Lemma game_inv_winner s (m : nat) e w :
  game_inv s -> history s !! m = Some e ->
  calculateWinner (squares e) = Str w ->
  (w = "X" /\ Z.odd (Z.of_nat m) = true /\ (5 <= m)%nat) \/
  (w = "O" /\ Z.even (Z.of_nat m) = true /\ (6 <= m)%nat).
Proof.
  intros Hinv He Hw.
  destruct (game_inv_counts s Hinv m e He) as [Hsum Hdiff].
  pose proof (winner_marks _ _ Hw) as H3.
  destruct m as [|m].
  { rewrite (inv_first s Hinv) in He. injection He as <-. by vm_compute in Hw. }
  destruct (lookup_lt_is_Some_2 (history s) m) as [p Hp].
  { apply lookup_lt_Some in He. lia. }
  destruct (inv_moves s Hinv m p e Hp He) as (i & _ & _ & Hnone & Heq & _).
  rewrite Heq in Hw. apply (winner_after_move _ _ _ _ Hnone) in Hw.
  unfold odd_bit in Hdiff. rewrite <- Z.negb_even.
  rewrite Nat2Z.inj_succ, Z.even_succ, <- Z.negb_even in *.
  unfold mark in Hw. destruct (Z.even (Z.of_nat m)); simpl in *; subst w.
  - left. split; [done|]. split; [done|]. lia.
  - right. split; [done|]. split; [done|]. lia.
Qed.

Lemma render_game_inv s :
  game_inv s ->
  exists current ds,
    current_entry s = Some current /\
    render s =
      Ok {| view_squares := squares current;
            view_status :=
              (if truthy (calculateWinner (squares current))
               then "Winner is " +:+ value_text (calculateWinner (squares current))
                    +:+ "!"
               else "Next Player is " +:+ (if xIsNext s then "X" else "O"));
            view_moves := ds |}.
Proof.
  intros Hinv. destruct (game_inv_current s Hinv) as (current & Hcur & _).
  destruct (collect_Ok (imap description (history s))) as (ds & Hds & _).
  { intros k m. rewrite list_lookup_imap.
    destruct (history s !! k) as [e|] eqn:He; [|done]. intros [= <-].
    destruct (decide (k = 0%nat)) as [->|Hk]; [by eexists|].
    destruct (game_inv_coords s k e Hinv Hk He) as (i & _ & Hc).
    eexists. by apply description_move. }
  exists current, ds. split; [done|].
  unfold render. unfold current_entry in Hcur. rewrite Hcur, Hds. done.
Qed.

End last_mover.

(** X9. In every reachable state, if the current board has a winner, it is
    the player who moved last: X on an odd step, O on an even one; and X
    cannot have won before step 5, nor O before step 6. *)
Theorem winner_is_last_mover (s : GameState) (current : entry) (w : string) :
  reachable s ->
  current_entry s = Some current ->
  calculateWinner (squares current) = Str w ->
  (w = "X" /\ Z.Odd (step s) /\ 5 <= step s) \/
  (w = "O" /\ Z.Even (step s) /\ 6 <= step s).
Proof.
  intros Hs (Hstep & Hcur & _)%current_entry_lookup Hw.
  destruct (game_inv_winner s _ current w (reachable_inv s Hs) Hcur Hw)
    as [(-> & Hp & Hm) | (-> & Hp & Hm)]; rewrite Z2Nat.id in Hp by done.
  - left. split; [done|]. split; [by apply Z.odd_spec | lia].
  - right. split; [done|]. split; [by apply Z.even_spec | lia].
Qed.

Lemma winner_is_last_mover_witness :
  let s := state_after [Click 0; Click 4; Click 1; Click 3; Click 2] in
  exists current,
    reachable s /\ current_entry s = Some current /\
    calculateWinner (squares current) = Str "X" /\
    (("X" = "X" /\ Z.Odd (step s) /\ 5 <= step s) \/
     ("X" = "O" /\ Z.Even (step s) /\ 6 <= step s)).
Proof.
  intros s. assert (reachable s) as Hs by reach_by_run.
  destruct (game_inv_current s (reachable_inv s Hs)) as (current & Hcur & _).
  assert (calculateWinner (squares current) = Str "X") as Hw.
  { vm_compute in Hcur. injection Hcur as <-. by vm_compute. }
  exists current. split; [done|]. split; [done|]. split; [done|].
  apply (winner_is_last_mover s current "X" Hs Hcur Hw).
Defined.

(** X10. In every reachable state [render] returns normally, hands the
    current board to [Board], and the status line is "Winner is X!" or
    "Winner is O!" when that board has a winner, and otherwise
    "Next Player is X" on an even step and "Next Player is O" on an odd
    one. *)
Theorem render_status (s : GameState) :
  reachable s ->
  exists v current,
    render s = Ok v /\ current_entry s = Some current /\
    view_squares v = squares current /\
    (calculateWinner (squares current) = Null ->
     view_status v = if Z.even (step s) then "Next Player is X"
                     else "Next Player is O") /\
    (forall w, calculateWinner (squares current) = Str w ->
       (w = "X" /\ view_status v = "Winner is X!") \/
       (w = "O" /\ view_status v = "Winner is O!")).
Proof.
  intros Hs. pose proof (reachable_inv s Hs) as Hinv.
  destruct (render_game_inv s Hinv) as (current & ds & Hcur & Hr).
  eexists _, current. split; [exact Hr|]. split; [done|]. split; [done|].
  simpl. split.
  - intros ->. simpl. rewrite (inv_parity s Hinv).
    by destruct (Z.even (step s)).
  - intros w Hw. pose proof Hcur as (_ & Hlook & _)%current_entry_lookup.
    rewrite Hw.
    destruct (game_inv_winner s _ current w Hinv Hlook Hw)
      as [(-> & _) | (-> & _)]; [left | right]; done.
Qed.

Lemma render_status_witness :
  let s := state_after [Click 0; Click 4; Click 1; Click 3; Click 2] in
  reachable s /\
  exists v current,
    render s = Ok v /\ current_entry s = Some current /\
    view_squares v = squares current /\
    (calculateWinner (squares current) = Null ->
     view_status v = if Z.even (step s) then "Next Player is X"
                     else "Next Player is O") /\
    (forall w, calculateWinner (squares current) = Str w ->
       (w = "X" /\ view_status v = "Winner is X!") \/
       (w = "O" /\ view_status v = "Winner is O!")).
Proof.
  intros s. assert (reachable s) as Hs by reach_by_run.
  split; [done | apply (render_status s Hs)].
Defined.

(** ** How the stored boards follow each other *)

(** X11. In every reachable state each entry of [history] after the first
    is its predecessor with exactly one cell changed: a cell 0..8 that was
    empty now holds X (after an even index) or O (after an odd one), every
    other slot reads the same, the predecessor had no winner, and the
    entry's coordinates are those of that cell. *)
Theorem history_one_cell_per_step (s : GameState) (m : nat) (p e : entry) :
  reachable s ->
  history s !! m = Some p ->
  history s !! S m = Some e ->
  exists i, cell_index i /\
    aget (squares p) i = Str empty_cell /\
    aget (squares e) i = Str (if Z.even (Z.of_nat m) then "X" else "O") /\
    (forall j, j <> i -> aget (squares e) j = aget (squares p) j) /\
    calculateWinner (squares p) = Null /\
    coords e = Some [i mod 3 + 1; i / 3 + 1].
Proof.
  intros Hs Hp He.
  destruct (inv_moves s (reachable_inv s Hs) m p e Hp He)
    as (i & Hi & Hcell & Hnone & Heq & Hc).
  exists i. rewrite Heq. split; [done|]. split; [done|].
  split; [apply aget_aset_eq|]. split.
  - intros j Hj. by rewrite aget_aset_ne.
  - split; [done|]. rewrite Hc. by apply calculateCoordinate_in.
Qed.

Lemma history_one_cell_per_step_witness :
  let s := state_after [Click 0; Click 4; Click 8; Jump 1] in
  exists p e,
    reachable s /\ history s !! 1%nat = Some p /\ history s !! 2%nat = Some e /\
    exists i, cell_index i /\
      aget (squares p) i = Str empty_cell /\
      aget (squares e) i = Str (if Z.even (Z.of_nat 1) then "X" else "O") /\
      (forall j, j <> i -> aget (squares e) j = aget (squares p) j) /\
      calculateWinner (squares p) = Null /\
      coords e = Some [i mod 3 + 1; i / 3 + 1].
Proof.
  intros s. assert (reachable s) as Hs by reach_by_run.
  destruct (lookup_lt_is_Some_2 (history s) 1) as [p Hp]; [vm_compute; lia|].
  destruct (lookup_lt_is_Some_2 (history s) 2) as [e He]; [vm_compute; lia|].
  exists p, e. split; [done|]. split; [done|]. split; [done|].
  apply (history_one_cell_per_step s 1 p e Hs Hp He).
Defined.

(** ** Undo and redo *)

Section undo.

Lemma clicked_jump_back i s current :
  game_inv s -> current_entry s = Some current ->
  let s2 := {| history := history (clicked i s current);
               step := step s;
               xIsNext := (Z.rem (step s) 2 =? 0) |} in
  current_entry s2 = Some current /\ xIsNext s2 = xIsNext s /\
  clicked i s2 current = clicked i s current.
Proof.
  intros Hinv Hcur s2.
  pose proof Hcur as (Hstep & Hlook & Hlt)%current_entry_lookup.
  assert (current_entry s2 = Some current) as Hcur2.
  { apply list_get_Some. simpl. split; [done|].
    change (history (clicked i s current) !! Z.to_nat (step s) = Some current).
    rewrite clicked_lookup_past; [done | done | lia]. }
  assert (xIsNext s2 = xIsNext s) as Hx
    by (simpl; by rewrite rem2_even, (inv_parity s Hinv)).
  split; [done|]. split; [done|].
  unfold clicked. simpl. rewrite rem2_even, <- (inv_parity s Hinv).
  rewrite take_app_length' by (rewrite length_take_le; lia). done.
Qed.

End undo.

(** X12. Undo: in a reachable state, after a legal move on a cell 0..8,
    [jumpTo] back to the step the move was made from shows what was shown
    before: the same current entry, the same player to move, and [render]
    gives the same board and the same status line.  The new entry stays in
    [history]. *)
Theorem move_then_jump_back (s : GameState) (i : Z) :
  reachable s ->
  cell_index i ->
  legal_move i s ->
  exists s1 s2 v v2,
    handleClick i s = Ok s1 /\ jumpTo (step s) s1 = Ok s2 /\
    history s2 = history s1 /\
    step s2 = step s /\ xIsNext s2 = xIsNext s /\
    current_entry s2 = current_entry s /\
    render s = Ok v /\ render s2 = Ok v2 /\
    view_squares v2 = view_squares v /\ view_status v2 = view_status v.
Proof.
  intros Hs Hi Hlegal. pose proof (reachable_inv s Hs) as Hinv.
  destruct (handleClick_cases i s Hinv Hi)
    as (current & Hcur & [[Hbad _] | [_ H]]).
  { by destruct (legal_move_not_refused i s current Hlegal Hcur). }
  destruct (clicked_jump_back i s current Hinv Hcur) as (Hcur2 & Hx & _).
  set (s1 := clicked i s current) in *.
  set (s2 := {| history := history s1; step := step s;
                xIsNext := (Z.rem (step s) 2 =? 0) |}) in *.
  assert (game_inv s2) as Hinv2.
  { apply (game_inv_jumpTo (step s) s1).
    - by eapply game_inv_handleClick.
    - unfold s1. rewrite clicked_length by done.
      pose proof (inv_step s Hinv). lia. }
  destruct (render_game_inv s Hinv) as (c & ds & Hc & Hr).
  destruct (render_game_inv s2 Hinv2) as (c2 & ds2 & Hc2 & Hr2).
  assert (c = current) as -> by congruence.
  assert (c2 = current) as -> by congruence.
  eexists s1, s2, _, _. split; [done|]. split; [done|]. split; [done|].
  split; [done|]. split; [done|]. split; [congruence|].
  split; [exact Hr|]. split; [exact Hr2|]. split; [done|].
  cbn [view_status]. by rewrite Hx.
Qed.

Lemma move_then_jump_back_witness :
  let s := state_after [Click 0; Click 4; Click 8; Jump 1] in
  reachable s /\ cell_index 2 /\ legal_move 2 s /\
  exists s1 s2 v v2,
    handleClick 2 s = Ok s1 /\ jumpTo (step s) s1 = Ok s2 /\
    history s2 = history s1 /\
    step s2 = step s /\ xIsNext s2 = xIsNext s /\
    current_entry s2 = current_entry s /\
    render s = Ok v /\ render s2 = Ok v2 /\
    view_squares v2 = view_squares v /\ view_status v2 = view_status v.
Proof.
  intros s. assert (reachable s) as Hs by reach_by_run.
  assert (cell_index 2) as Hi by (unfold cell_index; lia).
  assert (legal_move 2 s) as Hl.
  { eexists. split; [by vm_compute|]. split; by vm_compute. }
  split; [done|]. split; [done|]. split; [done|].
  apply (move_then_jump_back s 2 Hs Hi Hl).
Defined.

(** X13. Redo: in a reachable state, after a legal move on a cell 0..8 and
    a [jumpTo] back to the step it was made from, the same click produces
    exactly the state the first click produced. *)
Theorem jump_back_then_same_move (s : GameState) (i : Z) :
  reachable s ->
  cell_index i ->
  legal_move i s ->
  exists s1 s2,
    handleClick i s = Ok s1 /\ jumpTo (step s) s1 = Ok s2 /\
    handleClick i s2 = Ok s1.
Proof.
  intros Hs Hi Hlegal. pose proof (reachable_inv s Hs) as Hinv.
  destruct (handleClick_cases i s Hinv Hi)
    as (current & Hcur & [[Hbad _] | [_ H]]).
  { by destruct (legal_move_not_refused i s current Hlegal Hcur). }
  destruct (clicked_jump_back i s current Hinv Hcur) as (Hcur2 & _ & Heq).
  set (s2 := {| history := history (clicked i s current); step := step s;
                xIsNext := (Z.rem (step s) 2 =? 0) |}) in *.
  exists (clicked i s current), s2. split; [exact H|]. split; [reflexivity|].
  destruct Hlegal as (c & Hc & Hnone & Hcell).
  assert (c = current) as -> by congruence.
  rewrite <- Heq. apply handleClick_legal; try done.
  - pose proof Hcur as (_ & Hlook & _)%current_entry_lookup.
    by eapply inv_boards.
  - by rewrite Hcell.
Qed.

Lemma jump_back_then_same_move_witness :
  let s := state_after [Click 0; Click 4; Click 8; Jump 1] in
  reachable s /\ cell_index 2 /\ legal_move 2 s /\
  exists s1 s2,
    handleClick 2 s = Ok s1 /\ jumpTo (step s) s1 = Ok s2 /\
    handleClick 2 s2 = Ok s1.
Proof.
  intros s. assert (reachable s) as Hs by reach_by_run.
  assert (cell_index 2) as Hi by (unfold cell_index; lia).
  assert (legal_move 2 s) as Hl.
  { eexists. split; [by vm_compute|]. split; by vm_compute. }
  split; [done|]. split; [done|]. split; [done|].
  apply (jump_back_then_same_move s 2 Hs Hi Hl).
Defined.

(** ** Clicks outside the board, clicks after a win *)

(** X14. In a reachable state whose current board has no winner, a click
    with an index outside 0..8 is accepted and leaves a state that cannot
    be drawn: the new entry has no coordinates, so [render] (and with it
    the list of labels) throws a [TypeError]. *)
Theorem click_outside_breaks_render (s : GameState) (i : Z) (current : entry) :
  reachable s ->
  i < 0 \/ 8 < i ->
  current_entry s = Some current ->
  calculateWinner (squares current) = Null ->
  exists s', handleClick i s = Ok s' /\
    render s' = Throw TypeError /\
    historyDescriptions s' = Throw TypeError.
Proof.
  intros Hs Hi Hcur Hnone. pose proof (reachable_inv s Hs) as Hinv.
  pose proof Hcur as (Hstep & Hlook & Hlt)%current_entry_lookup.
  assert (board9 (squares current)) as Hb by (by eapply inv_boards).
  exists (clicked i s current). split.
  { apply handleClick_legal; try done. by rewrite board9_aget_out. }
  assert (render (clicked i s current) = Throw TypeError) as Hr.
  { apply render_Throw. right.
    exists (S (Z.to_nat (step s))), (mkEntry
      (aset (aslice (squares current)) i (mark (xIsNext s))) None).
    split; [done|]. split; [|done]. unfold clicked; simpl.
    rewrite lookup_app_r by (rewrite length_take_le; lia).
    rewrite length_take_le by lia. rewrite Nat.sub_diag. simpl.
    by rewrite calculateCoordinate_out. }
  split; [done|]. unfold historyDescriptions. by rewrite Hr.
Qed.

Lemma click_outside_breaks_render_witness :
  let s := state_after [Click 0; Click 4] in
  exists current,
    reachable s /\ (-1 < 0 \/ 8 < -1) /\ current_entry s = Some current /\
    calculateWinner (squares current) = Null /\
    exists s', handleClick (-1) s = Ok s' /\
      render s' = Throw TypeError /\
      historyDescriptions s' = Throw TypeError.
Proof.
  intros s. assert (reachable s) as Hs by reach_by_run.
  destruct (game_inv_current s (reachable_inv s Hs)) as (current & Hcur & _).
  assert (calculateWinner (squares current) = Null) as Hn.
  { vm_compute in Hcur. injection Hcur as <-. by vm_compute. }
  assert (-1 < 0 \/ 8 < -1) as Hi by lia.
  exists current. split; [done|]. split; [done|]. split; [done|].
  split; [done|].
  apply (click_outside_breaks_render s (-1) current Hs Hi Hcur Hn).
Defined.

(** X15. Once the current board of a reachable state has a winner,
    [handleClick] ignores every click, whatever integer it is given: not
    only the nine cells, also indexes outside the board. *)
Theorem won_game_ignores_every_index (s : GameState) (i : Z) (current : entry) :
  reachable s ->
  current_entry s = Some current ->
  calculateWinner (squares current) <> Null ->
  handleClick i s = Ok s.
Proof.
  intros Hs Hcur Hw. pose proof (reachable_inv s Hs) as Hinv.
  pose proof Hcur as (_ & Hlook & _)%current_entry_lookup.
  rewrite (handleClick_current i s current Hcur), aslice_board9
    by (by eapply inv_boards).
  apply calculateWinner_truthy in Hw. by rewrite Hw.
Qed.

Lemma won_game_ignores_every_index_witness :
  let s := state_after [Click 0; Click 4; Click 1; Click 3; Click 2] in
  exists current,
    reachable s /\ current_entry s = Some current /\
    calculateWinner (squares current) <> Null /\
    handleClick 40 s = Ok s.
Proof.
  intros s. assert (reachable s) as Hs by reach_by_run.
  destruct (game_inv_current s (reachable_inv s Hs)) as (current & Hcur & _).
  assert (calculateWinner (squares current) <> Null) as Hw.
  { vm_compute in Hcur. injection Hcur as <-. by vm_compute. }
  exists current. split; [done|]. split; [done|]. split; [done|].
  apply (won_game_ignores_every_index s 40 current Hs Hcur Hw).
Defined.

(** ** The Board component and the page *)

Section board.

Lemma Board_rows squares :
  row_squares <$> Board squares
  = [ renderSquare squares <$> [0; 1; 2];
      renderSquare squares <$> [3; 4; 5];
      renderSquare squares <$> [6; 7; 8] ].
Proof. reflexivity. Qed.

Lemma page_clicks_cells v : page_clicks v = seqZ 0 9.
Proof. reflexivity. Qed.

Lemma ui_reachable_inv s :
  ui_reachable s ->
  reachable s /\ Z.of_nat (length (history s)) = step s + 1.
Proof.
  induction 1 as [| s v i s' _ [IHr IHl] Hv Hi Hs']; [by split; [constructor|]|].
  rewrite page_clicks_cells in Hi. apply elem_of_seqZ in Hi.
  assert (cell_index i) as Hc by (unfold cell_index; lia).
  split; [by eapply reach_click|].
  apply handleClick_Ok_cases in Hs' as (current & Hcur & [->| ->]); [done|].
  rewrite clicked_length by done. simpl. lia.
Qed.

End board.

(** X16. [Board] draws the nine cells once each, row by row: the square in
    row [r], column [c] (both 0..2) has key and click index [3 r + c],
    shows [squares[3 r + c]], and [calculateCoordinate] of that index is
    [(c + 1, r + 1)], the position where it is drawn. *)
Theorem Board_layout (squares : array) (r c : nat) :
  (r < 3)%nat -> (c < 3)%nat ->
  let i := 3 * Z.of_nat r + Z.of_nat c in
  (exists row, Board squares !! r = Some row /\ row_key row = Z.of_nat r /\
     row_squares row !! c
     = Some {| sq_key := i; sq_value := aget squares i; sq_click := i |}) /\
  calculateCoordinate i = Some [Z.of_nat c + 1; Z.of_nat r + 1] /\
  length (Board squares) = 3%nat /\
  sq_click <$> concat (row_squares <$> Board squares) = seqZ 0 9.
Proof.
  intros Hr Hc i. split; [|split; [|split; reflexivity]].
  - destruct r as [|[|[|r]]]; [| | |lia];
      (destruct c as [|[|[|c]]]; [| | |lia]);
      (eexists; split; [reflexivity|]; split; reflexivity).
  - destruct r as [|[|[|r]]]; [| | |lia];
      (destruct c as [|[|[|c]]]; [| | |lia]); by vm_compute.
Qed.

Lemma Board_layout_witness :
  let squares := array_of_list ["X"; empty_cell; empty_cell; empty_cell; "O";
                                empty_cell; empty_cell; empty_cell; empty_cell] in
  (exists row, Board squares !! 1%nat = Some row /\ row_key row = 1 /\
     row_squares row !! 1%nat
     = Some {| sq_key := 4; sq_value := Str "O"; sq_click := 4 |}) /\
  calculateCoordinate 4 = Some [2; 2].
Proof.
  intros squares.
  destruct (Board_layout squares 1 1 ltac:(lia) ltac:(lia))
    as (Hrow & Hc & _).
  split; [exact Hrow | exact Hc].
Defined.

(** X17. On the page as [render] builds it, the only handler of [Game]
    that an element is wired to is [handleClick], through the nine squares
    (the history buttons only react to the mouse moving over them).  So a
    user can only reach states that are reachable, and in which [step] is
    the last index of [history]: time travel never happens. *)
Theorem page_never_leaves_last_step (s : GameState) :
  ui_reachable s ->
  reachable s /\ Z.of_nat (length (history s)) = step s + 1 /\
  exists v, render s = Ok v /\ page_clicks v = [0; 1; 2; 3; 4; 5; 6; 7; 8].
Proof.
  intros [Hr Hl]%ui_reachable_inv. split; [done|]. split; [done|].
  destruct (render_game_inv s (reachable_inv s Hr)) as (c & ds & _ & Hv).
  eexists. split; [exact Hv | reflexivity].
Qed.

Lemma page_never_leaves_last_step_witness :
  exists s1 s2,
    handleClick 4 initial = Ok s1 /\ handleClick 4 s1 = Ok s2 /\
    ui_reachable s2 /\
    (reachable s2 /\ Z.of_nat (length (history s2)) = step s2 + 1 /\
     exists v, render s2 = Ok v /\ page_clicks v = [0; 1; 2; 3; 4; 5; 6; 7; 8]).
Proof.
  destruct (handleClick 4 initial) as [s1|] eqn:H1; [|by vm_compute in H1].
  destruct (handleClick 4 s1) as [s2|] eqn:H2.
  2: { vm_compute in H1. injection H1 as <-. by vm_compute in H2. }
  assert (ui_reachable s1) as Hu1.
  { destruct (render initial) as [v|] eqn:Hv; [|by vm_compute in Hv].
    apply (ui_click initial v 4); [constructor | done | | done].
    rewrite page_clicks_cells. apply elem_of_seqZ. lia. }
  assert (ui_reachable s2) as Hu2.
  { destruct (ui_reachable_inv s1 Hu1) as [Hr1 _].
    destruct (render_game_inv s1 (reachable_inv s1 Hr1)) as (c & ds & _ & Hv).
    eapply (ui_click s1 _ 4); [done | exact Hv | | done].
    rewrite page_clicks_cells. apply elem_of_seqZ. lia. }
  exists s1, s2. split; [done|]. split; [done|]. split; [done|].
  apply (page_never_leaves_last_step s2 Hu2).
Defined.

(** ** The component without coordinates *)

Section no_coords.

Lemma list_get_fmap {A B} (f : A -> B) (l : list A) i :
  list_get (f <$> l) i = f <$> list_get l i.
Proof. unfold list_get. case_decide; [apply list_lookup_fmap | done]. Qed.

Lemma list_slice0_fmap {A B} (f : A -> B) (l : list A) e :
  list_slice0 (f <$> l) e = f <$> list_slice0 l e.
Proof. unfold list_slice0. by rewrite length_fmap, fmap_take. Qed.

Lemma erase_handleClick i s :
  NoCoords.handleClick i (erase s) = erase_outcome (handleClick i s).
Proof.
  unfold NoCoords.handleClick, handleClick, erase; simpl.
  rewrite list_slice0_fmap, list_get_fmap.
  destruct (list_get _ (step s)) as [current|]; simpl; [|done].
  destruct (_ || _); simpl; [done|].
  unfold erase; simpl. by rewrite fmap_app, length_fmap.
Qed.

Lemma erase_jumpTo k s :
  NoCoords.jumpTo k (erase s) = erase_outcome (jumpTo k s).
Proof. reflexivity. Qed.

Lemma erase_outcome_Ok r t :
  erase_outcome r = Ok t -> exists s, r = Ok s /\ erase s = t.
Proof. destruct r as [s|e]; simpl; [|done]. intros [= <-]. eauto. Qed.

Lemma erase_render s :
  game_inv s ->
  exists v v0,
    render s = Ok v /\ NoCoords.render (erase s) = Ok v0 /\
    NoCoords.view_squares v0 = view_squares v /\
    NoCoords.view_status v0 = view_status v /\
    NoCoords.view_moves v0
    = imap NoCoords.moveButton (NoCoords.history (erase s)).
Proof.
  intros Hinv. destruct (render_game_inv s Hinv) as (cur & ds & Hcur & Hr).
  unfold NoCoords.render. simpl. rewrite list_get_fmap.
  unfold current_entry in Hcur. rewrite Hcur. simpl.
  eexists _, _. split; [exact Hr|]. split; [reflexivity|]. done.
Qed.

Lemma moveButton_jump_in_range (h : list NoCoords.entry) k :
  k ∈ NoCoords.btn_jump <$> imap NoCoords.moveButton h ->
  0 <= k < Z.of_nat (length h).
Proof.
  intros (b & -> & Hb)%list_elem_of_fmap.
  apply list_elem_of_lookup in Hb as [m Hm]. rewrite list_lookup_imap in Hm.
  destruct (h !! m) as [e|] eqn:He; [|done]. injection Hm as <-. simpl.
  apply lookup_lt_Some in He. lia.
Qed.

Lemma NoCoords_ui_reachable_erase t :
  NoCoords.ui_reachable t -> exists s, reachable s /\ erase s = t.
Proof.
  induction 1 as [| t v e t' _ (s & Hs & <-) Hv He Ht'].
  - exists initial. split; [constructor | done].
  - destruct (erase_render s (reachable_inv s Hs)) as (w & v0 & _ & Hv0 & _ & _ & Hm).
    rewrite Hv0 in Hv. injection Hv as <-.
    unfold NoCoords.page_events in He. apply elem_of_app in He as [He|He].
    + apply list_elem_of_fmap in He as (i & -> & Hi).
      change (i ∈ seqZ 0 9) in Hi. apply elem_of_seqZ in Hi.
      simpl in Ht'. rewrite erase_handleClick in Ht'.
      apply erase_outcome_Ok in Ht' as (s' & Hs' & <-).
      exists s'. split; [|done].
      apply (reach_click s i); [done | unfold cell_index; lia | done].
    + apply list_elem_of_fmap in He as (k & -> & Hk).
      rewrite Hm in Hk. apply moveButton_jump_in_range in Hk.
      simpl in Hk. rewrite length_fmap in Hk.
      simpl in Ht'. rewrite erase_jumpTo in Ht'.
      apply erase_outcome_Ok in Ht' as (s' & Hs' & <-).
      exists s'. split; [|done]. by apply (reach_jump s k).
Qed.

Lemma NoCoords_page_click t v i :
  NoCoords.render t = Ok v -> cell_index i -> Click i ∈ NoCoords.page_events v.
Proof.
  intros _ Hi. apply elem_of_app. left. apply list_elem_of_fmap.
  exists i. split; [done|]. change (i ∈ seqZ 0 9). apply elem_of_seqZ.
  unfold cell_index in Hi. lia.
Qed.

Lemma NoCoords_page_jump t v (m : nat) :
  NoCoords.render t = Ok v -> (m < length (NoCoords.history t))%nat ->
  Jump (Z.of_nat m) ∈ NoCoords.page_events v.
Proof.
  intros Hv Hm. unfold NoCoords.render in Hv.
  destruct (list_get _ _) as [c|]; [|done]. injection Hv as <-.
  apply elem_of_app. right. simpl. apply list_elem_of_fmap.
  exists (Z.of_nat m). split; [done|]. apply list_elem_of_fmap.
  destruct (lookup_lt_is_Some_2 _ _ Hm) as [e He].
  exists (NoCoords.moveButton m e). split; [done|].
  apply list_elem_of_lookup. exists m. by rewrite list_lookup_imap, He.
Qed.

End no_coords.

(** X18. The two versions of the component agree on the game: forgetting
    the coordinates of every entry turns the result of [handleClick] and of
    [jumpTo] into the result of the handlers of the second file on the
    state without coordinates, for every state and every integer
    argument, errors included. *)
Theorem handlers_agree_without_coords (s : GameState) (i : Z) :
  NoCoords.handleClick i (erase s) = erase_outcome (handleClick i s) /\
  NoCoords.jumpTo i (erase s) = erase_outcome (jumpTo i s).
Proof. split; [apply erase_handleClick | apply erase_jumpTo]. Qed.

(** X19. In the second file the history buttons do call [jumpTo], each with
    its own position in [history].  Every state a user of that page can
    reach is a reachable game state without its coordinates; so [step]
    always points into [history], [render] returns, every button jumps to
    a step that exists, and no event of the page makes a handler throw. *)
Theorem second_page_stays_in_range (t : NoCoords.GameState) :
  NoCoords.ui_reachable t ->
  (exists s, reachable s /\ erase s = t) /\
  0 <= NoCoords.step t < Z.of_nat (length (NoCoords.history t)) /\
  exists v, NoCoords.render t = Ok v /\
    length (NoCoords.view_moves v) = length (NoCoords.history t) /\
    (forall b, b ∈ NoCoords.view_moves v ->
       0 <= NoCoords.btn_jump b < Z.of_nat (length (NoCoords.history t))) /\
    (forall e, e ∈ NoCoords.page_events v ->
       exists t', NoCoords.dispatch e t = Ok t').
Proof.
  intros (s & Hs & <-)%NoCoords_ui_reachable_erase.
  pose proof (reachable_inv s Hs) as Hinv.
  split; [by exists s|]. split.
  { simpl. rewrite length_fmap. apply Hinv. }
  destruct (erase_render s Hinv) as (w & v0 & _ & Hv0 & _ & _ & Hm).
  exists v0. split; [done|]. rewrite Hm. split; [by rewrite length_imap|].
  split.
  - intros b Hb. apply moveButton_jump_in_range.
    apply list_elem_of_fmap. by exists b.
  - intros e [He|He]%elem_of_app.
    + apply list_elem_of_fmap in He as (i & -> & _). simpl.
      rewrite erase_handleClick.
      pose proof (handleClick_Ok_or_Throw i s) as H.
      destruct (game_inv_current s Hinv) as (c & Hc & _). rewrite Hc in H.
      destruct H as [s' ->]. simpl. eauto.
    + apply list_elem_of_fmap in He as (k & -> & _). simpl. eauto.
Qed.

Lemma second_page_stays_in_range_witness :
  exists t1 t2,
    NoCoords.handleClick 4 NoCoords.initial = Ok t1 /\
    NoCoords.jumpTo 0 t1 = Ok t2 /\
    NoCoords.ui_reachable t2 /\
    0 <= NoCoords.step t2 < Z.of_nat (length (NoCoords.history t2)).
Proof.
  destruct (NoCoords.handleClick 4 NoCoords.initial) as [t1|] eqn:H1;
    [|by vm_compute in H1].
  exists t1. eexists. split; [done|]. split; [reflexivity|].
  assert (NoCoords.ui_reachable t1) as Hu1.
  { destruct (NoCoords.render NoCoords.initial) as [v|] eqn:Hv;
      [|by vm_compute in Hv].
    apply (NoCoords.ui_event NoCoords.initial v (Click 4));
      [constructor | done | | done].
    apply (NoCoords_page_click _ _ _ Hv). unfold cell_index. lia. }
  destruct (second_page_stays_in_range t1 Hu1) as (_ & Hstep & v & Hv & _).
  assert (NoCoords.ui_reachable
            {| NoCoords.history := NoCoords.history t1; NoCoords.step := 0;
               NoCoords.xIsNext := (Z.rem 0 2 =? 0) |}) as Hu2.
  { apply (NoCoords.ui_event t1 v (Jump 0)); [done | done | | done].
    apply (NoCoords_page_jump t1 v 0 Hv). lia. }
  split; [exact Hu2|].
  apply (second_page_stays_in_range _ Hu2).
Defined.

(** ** The History button *)

(** X20. Whatever mouse events a [History] button receives, its text stays
    the description with one space before and one after it, and it is bold
    exactly when the last event was the mouse coming over it (normal
    before any event and after the mouse has left). *)
Theorem History_bold_while_hovered (description : string)
    (evs : list mouse_event) :
  History_render description (foldl History_handle History_initial evs)
  = {| hb_text := " " +:+ description +:+ " ";
       hb_fontWeight := match last evs with
                        | Some MouseOver => "bold"
                        | _ => "normal"
                        end |}.
Proof.
  destruct evs as [|ev evs _] using rev_ind; [done|].
  rewrite foldl_app, last_snoc. simpl. by destruct ev.
Qed.

(** ** Coordinates and cell indexes *)

(** X21. [calculateCoordinate] yields [undefined] exactly for the indexes
    outside 0..8; when it yields coordinates they are a pair
    [(column, row)] with both in 1..3, and the index is recovered from them
    as [3 (row - 1) + (column - 1)], so different cells get different
    coordinates. *)
Theorem calculateCoordinate_round_trip (i : Z) :
  (calculateCoordinate i = None <-> i < 0 \/ 8 < i) /\
  (forall cs, calculateCoordinate i = Some cs ->
     exists col row, cs = [col; row] /\
       1 <= col <= 3 /\ 1 <= row <= 3 /\
       i = 3 * (row - 1) + (col - 1)) /\
  (forall j, is_Some (calculateCoordinate i) ->
     calculateCoordinate i = calculateCoordinate j -> i = j).
Proof.
  assert (forall k cs, calculateCoordinate k = Some cs ->
            exists col row, cs = [col; row] /\
              1 <= col <= 3 /\ 1 <= row <= 3 /\
              k = 3 * (row - 1) + (col - 1)) as Hback.
  { intros k cs Hk. destruct (decide (0 <= k <= 8)) as [Hin|Hout].
    - rewrite calculateCoordinate_in in Hk by done. injection Hk as <-.
      eexists _, _. split; [reflexivity|].
      pose proof (Z.mod_pos_bound k 3). pose proof (Z.div_mod k 3).
      pose proof (Z.div_pos k 3). pose proof (Z.div_lt_upper_bound k 3 3). lia.
    - rewrite calculateCoordinate_out in Hk by lia. done. }
  split; [|split].
  - split; [|apply calculateCoordinate_out].
    intros Hnone. destruct (decide (0 <= i <= 8)) as [Hin|Hout]; [|lia].
    rewrite calculateCoordinate_in in Hnone by done. done.
  - apply Hback.
  - intros j [cs Hi] Heq. rewrite Hi in Heq. symmetry in Heq.
    destruct (Hback i cs Hi) as (c & r & -> & _ & _ & ->).
    destruct (Hback j _ Heq) as (c' & r' & [= <- <-] & _ & _ & ->). done.
Qed.
